(** * TinyXVC: profile resolution and driver activation (src/txvc.c)

    A shallow embedding of [activate_driver] and [main] from [src/txvc.c].
    The scratch buffer [char args[1024]] is a list of bytes, pointers into it
    are offsets, the two arrays [argNames] and [argValues] are lists of
    nullable pointers, and every memory access is bounds checked: an access
    outside its object (undefined behaviour in C) makes the computation
    return [None].  Calls that leave the translation unit (logging, the
    driver's [activate] and [deactivate], the server loop) are recorded as
    events of a trace. *)

From Stdlib Require Import Ascii String ZArith Lia.
From stdpp Require Import base option list.

Open Scope char_scope.
Open Scope list_scope.

(** ** C strings *)

(** A C string is the sequence of its bytes before the terminating NUL. *)
Abbreviation cstring := (list ascii).

Definition NUL : ascii := "000".

(** String literals of the source. *)
Definition lit (s : string) : cstring := list_ascii_of_string s.

(** The bytes of [s] that C sees: everything before the first NUL. *)
Fixpoint c_str (s : cstring) : cstring :=
  match s with
  | [] => []
  | c :: s' => if Ascii.eqb c NUL then [] else c :: c_str s'
  end.

(** [strcmp]: the difference of the first two bytes that differ, read as
    unsigned chars; the end of a string reads as NUL. *)
Fixpoint strcmp (a b : cstring) : Z :=
  match a, b with
  | [], [] => 0
  | [], y :: _ => 0 - Z.of_nat (nat_of_ascii y)
  | x :: _, [] => Z.of_nat (nat_of_ascii x)
  | x :: a', y :: b' =>
      if Ascii.eqb x y
      then (if Ascii.eqb x NUL then 0 else strcmp a' b')
      else Z.of_nat (nat_of_ascii x) - Z.of_nat (nat_of_ascii y)
  end%Z.

(** ** The scratch buffer and pointers *)

Abbreviation buffer := (list ascii).

(** A non-null [char *] of [activate_driver]: it points into [args] or at
    the string literal [""]. NULL is [None] of [option ptr]. *)
Inductive ptr : Type :=
  | InArgs (off : nat)
  | EmptyLit.

Definition ARGS_SIZE : nat := 1024.
Definition MAX_ARGS : nat := 32.

(** [strncpy(dst, src, n)] for a [dst] of exactly [n] bytes: the bytes of
    [src] up to its terminator or [n] of them, then NUL padding up to [n]. *)
Fixpoint strncpy (src : cstring) (n : nat) {struct n} : buffer :=
  match n with
  | 0 => []
  | S n' =>
      match src with
      | [] => replicate (S n') NUL
      | c :: src' =>
          if Ascii.eqb c NUL then replicate (S n') NUL
          else c :: strncpy src' n'
      end
  end.

(** [b[p]] *)
Definition load (b : buffer) (p : nat) : option ascii := b !! p.

(** [b[p] = c] *)
Definition store (b : buffer) (p : nat) (c : ascii) : option buffer :=
  match b !! p with
  | Some _ => Some (<[p := c]> b)
  | None => None
  end.

(** [strchr] over the bytes [l] that start at offset [p]: the offset of the
    first [c], or NULL when the terminator comes first. *)
Fixpoint strchr_from (l : list ascii) (p : nat) (c : ascii) : option (option nat) :=
  match l with
  | [] => None
  | x :: l' =>
      if Ascii.eqb x c then Some (Some p)
      else if Ascii.eqb x NUL then Some None
      else strchr_from l' (S p) c
  end.

Definition strchr (b : buffer) (p : nat) (c : ascii) : option (option nat) :=
  strchr_from (drop p b) p c.

(** The C string that starts at the head of [l]. *)
Fixpoint cstr_from (l : list ascii) : option cstring :=
  match l with
  | [] => None
  | x :: l' => if Ascii.eqb x NUL then Some [] else cons x <$> cstr_from l'
  end.

Definition read_cstr (b : buffer) (p : nat) : option cstring :=
  cstr_from (drop p b).

Definition deref (b : buffer) (p : ptr) : option cstring :=
  match p with
  | InArgs off => read_cstr b off
  | EmptyLit => Some []
  end.

(** [arr[i] = v] on one of the two pointer arrays. *)
Definition arr_set (arr : list (option ptr)) (i : nat) (v : option ptr)
  : option (list (option ptr)) :=
  match arr !! i with
  | Some _ => Some (<[i := v]> arr)
  | None => None
  end.

(** ** Cutting the profile into name and value chunks (lines 174-200) *)

Record parse_state : Type := {
  ps_args : buffer;
  ps_cur : option nat;
  ps_names : list (option ptr);
  ps_values : list (option ptr)
}.

(** The body of the [for] loop, entered with [cur] non-null. *)
Definition pair_body (i : nat) (st : parse_state) (cur : nat) : option parse_state :=
  let tmp := cur in
  comma ← strchr (ps_args st) cur ",";
  '(args1, cur1) ← match comma with
                   | Some k => a ← store (ps_args st) k NUL; Some (a, Some (S k))
                   | None => Some (ps_args st, None)
                   end;
  names1 ← arr_set (ps_names st) i (Some (InArgs tmp));
  eq ← strchr args1 tmp "=";
  match eq with
  | Some k =>
      args2 ← store args1 k NUL;
      values1 ← arr_set (ps_values st) i (Some (InArgs (S k)));
      Some {| ps_args := args2; ps_cur := cur1;
              ps_names := names1; ps_values := values1 |}
  | None =>
      values1 ← arr_set (ps_values st) i (Some EmptyLit);
      Some {| ps_args := args1; ps_cur := cur1;
              ps_names := names1; ps_values := values1 |}
  end.

(** [for (i = ..; i < 32 && cur && *cur; i++)], with [n] the number of
    values of [i] still below 32. *)
Fixpoint pair_loop (n i : nat) (st : parse_state) : option parse_state :=
  match n with
  | 0 => Some st
  | S n' =>
      match ps_cur st with
      | None => Some st
      | Some cur =>
          ch ← load (ps_args st) cur;
          if Ascii.eqb ch NUL then Some st
          else st' ← pair_body i st cur; pair_loop n' (S i) st'
      end
  end.

(** Lines 174-200. [name] is [args] itself, offset 0. *)
Definition parse_profile (profile : cstring) : option parse_state :=
  args ← store (strncpy profile ARGS_SIZE) (ARGS_SIZE - 1) NUL;
  let st := {| ps_args := args; ps_cur := None;
               ps_names := replicate MAX_ARGS None;
               ps_values := replicate MAX_ARGS None |} in
  colon ← strchr args 0 ":";
  match colon with
  | Some k =>
      args' ← store args k NUL;
      pair_loop MAX_ARGS 0
        {| ps_args := args'; ps_cur := Some (S k);
           ps_names := ps_names st; ps_values := ps_values st |}
  | None => Some st
  end.

(** What a callee reads through the pointers it is handed. *)
Definition view (b : buffer) (arr : list (option ptr)) : option (list (option cstring)) :=
  mapM (λ p, match p with
             | None => Some None
             | Some q => Some <$> deref b q
             end) arr.

Record parsed_profile : Type := {
  driverName : cstring;
  argNames : list (option cstring);
  argValues : list (option cstring)
}.

Definition parse (profile : cstring) : option parsed_profile :=
  st ← parse_profile profile;
  name ← read_cstr (ps_args st) 0;
  names ← view (ps_args st) (ps_names st);
  values ← view (ps_args st) (ps_values st);
  Some {| driverName := name; argNames := names; argValues := values |}.

(** The name and value pairs in the two arrays, up to the first null name. *)
Fixpoint arg_pairs (names values : list (option cstring)) : list (cstring * cstring) :=
  match names, values with
  | Some n :: names', Some v :: values' => (n, v) :: arg_pairs names' values'
  | _, _ => []
  end.

Definition pairs_of (pp : parsed_profile) : list (cstring * cstring) :=
  arg_pairs (argNames pp) (argValues pp).

(** ** Calls that leave the translation unit *)

Inductive log_level : Type := LOG_INFO | LOG_WARN | LOG_ERROR.

(** The format strings of the log calls of [activate_driver] and [main]. *)
Inductive message : Type :=
  | MsgFoundAlias        (* "Found alias %s (%s),\n" *)
  | MsgUsingProfile      (* "using profile %s\n" *)
  | MsgFailedToActivate  (* "Failed to activate driver \"%s\"\n" *)
  | MsgCanNotFindDriver  (* "Can not find driver \"%s\"\n" *)
  | MsgFailedToDeactivate (* "Failed to deactivate driver \"%s\"\n" *).

Inductive event : Type :=
  | ELog (lvl : log_level) (msg : message) (args : list cstring)
  | EPrintUsage (progname : cstring) (detailed : bool)
  | EStderr (text : string)
  | ESetLogMinLevel (verbose : bool)
  | EListenForUserInterrupt
  | EActivate (driver : cstring) (names values : list (option cstring))
  | ERunServer (addr driver : cstring)
  | EDeactivate (driver : cstring).

(** Computations that may hit undefined behaviour and that log their
    external calls. *)
Definition M (A : Type) : Type := option (A * list event).

Definition ret {A} (a : A) : M A := Some (a, []).

Definition bind {A B} (m : M A) (k : A → M B) : M B :=
  match m with
  | None => None
  | Some (a, t1) =>
      match k a with
      | None => None
      | Some (b, t2) => Some (b, t1 ++ t2)
      end
  end.

Definition emit (e : event) : M unit := Some (tt, [e]).

Definition lift {A} (o : option A) : M A :=
  match o with
  | Some a => ret a
  | None => None
  end.

Notation "'do' x <- m ; k" := (bind m (λ x, k))
  (at level 10, x name, m at level 100, k at level 200, only parsing).

Module Alias.
(** [struct txvc_profile_alias] of alias.h. *)
Record txvc_profile_alias : Type := {
  alias : cstring;
  profile : cstring;
  description : cstring
}.
End Alias.

Module Driver.
(** [struct txvc_driver] of driver.h. [activate] and [deactivate] are the
    driver's answers to the two calls. *)
Record txvc_driver : Type := {
  name : cstring;
  help : cstring;
  activate : list (option cstring) → list (option cstring) → bool;
  deactivate : unit → bool
}.
End Driver.

Module Cli.
(** [struct cli_options]; a null [const char *] is [None]. *)
Record cli_options : Type := {
  serverAddr : option cstring;
  profile : option cstring;
  verbose : bool;
  help : bool
}.
End Cli.

Abbreviation txvc_profile_alias := Alias.txvc_profile_alias.
Abbreviation txvc_driver := Driver.txvc_driver.
Abbreviation cli_options := Cli.cli_options.

(** Modelled from the spec: [txvc_enumerate_drivers] of driver.h, whose
    definition is not part of src/. It is "a registry-iteration primitive
    that, given a predicate [...], returns the first matching descriptor or
    none"; as [driver_usage] and [find_by_name] use it, the callback answers
    [true] to go on and [false] to stop at the driver it was shown. *)
Fixpoint txvc_enumerate_drivers {E} (registry : list txvc_driver)
    (fn : txvc_driver → E → bool) (extra : E) : option txvc_driver :=
  match registry with
  | [] => None
  | d :: registry' =>
      if fn d extra then txvc_enumerate_drivers registry' fn extra else Some d
  end.

Definition find_by_name (d : txvc_driver) (extra : cstring) : bool :=
  negb (Z.eqb (strcmp extra (Driver.name d)) 0).

Definition DEFAULT_SERVER_ADDR : cstring := lit "127.0.0.1:2542".
Definition EXIT_SUCCESS : Z := 0.
Definition EXIT_FAILURE : Z := 1.

(** ** Alias substitution (lines 161-167) *)

(** The [for] loop over the table. The table is the list of the entries
    that precede the sentinel, the entry whose [alias] is null. *)
Fixpoint alias_loop (table : list txvc_profile_alias) (profile : cstring) : M cstring :=
  match table with
  | [] => ret profile
  | a :: table' =>
      if Z.eqb (strcmp profile (Alias.alias a)) 0 then
        (do _ <- emit (ELog LOG_INFO MsgFoundAlias [Alias.alias a; Alias.description a]);
         do _ <- emit (ELog LOG_INFO MsgUsingProfile [Alias.profile a]);
         alias_loop table' (Alias.profile a))
      else alias_loop table' profile
  end.

(** The same loop one iteration at a time: the state is the position of the
    [alias] pointer in the table, the current [profile] and the number of
    assignments to [profile] made so far. *)
Record alias_cursor : Type := {
  ac_index : nat;
  ac_profile : cstring;
  ac_substitutions : nat
}.

(** One test of the loop condition and, when it holds, one run of the body
    followed by [alias++]. [None]: the sentinel was reached, the loop is
    left. *)
Definition alias_step (table : list txvc_profile_alias) (st : alias_cursor)
  : option alias_cursor :=
  match table !! ac_index st with
  | None => None
  | Some a =>
      if Z.eqb (strcmp (ac_profile st) (Alias.alias a)) 0
      then Some {| ac_index := S (ac_index st);
                   ac_profile := Alias.profile a;
                   ac_substitutions := S (ac_substitutions st) |}
      else Some {| ac_index := S (ac_index st);
                   ac_profile := ac_profile st;
                   ac_substitutions := ac_substitutions st |}
  end.

(** At most [fuel] iterations: the state in which the loop is left, or
    [None] when it is still running after [fuel] iterations. *)
Fixpoint alias_run (table : list txvc_profile_alias) (fuel : nat) (st : alias_cursor)
  : option alias_cursor :=
  match alias_step table st with
  | None => Some st
  | Some st' =>
      match fuel with
      | 0 => None
      | S fuel' => alias_run table fuel' st'
      end
  end.

Definition alias_start (profile : cstring) : alias_cursor :=
  {| ac_index := 0; ac_profile := profile; ac_substitutions := 0 |}.

(** The loop never leaves, however many iterations it is given. *)
Definition loops_forever (table : list txvc_profile_alias) (profile : cstring) : Prop :=
  ∀ fuel, alias_run table fuel (alias_start profile) = None.

(** ** [activate_driver] and [main] *)

Section Program.
(** The two global tables, defined outside src/txvc.c. *)
Variable txvc_profile_aliases : list txvc_profile_alias.
Variable drivers : list txvc_driver.

Definition activate_driver (profile : cstring) : M (option txvc_driver) :=
  do profile <- alias_loop txvc_profile_aliases profile;
  do st <- lift (parse_profile profile);
  do name <- lift (read_cstr (ps_args st) 0);
  match txvc_enumerate_drivers drivers find_by_name name with
  | Some d =>
      do argNames <- lift (view (ps_args st) (ps_names st));
      do argValues <- lift (view (ps_args st) (ps_values st));
      do _ <- emit (EActivate (Driver.name d) argNames argValues);
      if Driver.activate d argNames argValues then ret (Some d)
      else (do _ <- emit (ELog LOG_ERROR MsgFailedToActivate [name]);
            ret None)
  | None =>
      do _ <- emit (ELog LOG_ERROR MsgCanNotFindDriver [name]);
      ret None
  end.

(** [main], from the result of [parse_cli_options] on: [getopt] is the C
    library's, so what it made of [argv] is an input here. *)
Definition main (progname : cstring) (parsed : bool) (opts : cli_options) : M Z :=
  if negb parsed then
    (do _ <- emit (EPrintUsage progname false);
     ret EXIT_FAILURE)
  else if Cli.help opts then
    (do _ <- emit (EPrintUsage progname true);
     ret EXIT_SUCCESS)
  else
    match Cli.profile opts with
    | None =>
        do _ <- emit (EStderr "Profile is missing");
        ret EXIT_FAILURE
    | Some profile =>
        let serverAddr := default DEFAULT_SERVER_ADDR (Cli.serverAddr opts) in
        do _ <- emit (ESetLogMinLevel (Cli.verbose opts));
        do _ <- emit EListenForUserInterrupt;
        do d <- activate_driver profile;
        match d with
        | Some d =>
            do _ <- emit (ERunServer serverAddr (Driver.name d));
            do _ <- emit (EDeactivate (Driver.name d));
            do _ <- (if Driver.deactivate d tt then ret tt
                     else emit (ELog LOG_WARN MsgFailedToDeactivate [Driver.name d]));
            ret 0%Z
        | None => ret 0%Z
        end
    end.
End Program.

(** ** Observations on a trace *)

Definition is_activation (e : event) : bool :=
  match e with EActivate _ _ _ => true | _ => false end.

Definition is_server_run (e : event) : bool :=
  match e with ERunServer _ _ => true | _ => false end.

Definition activations (t : list event) : nat :=
  length (List.filter is_activation t).
Definition server_runs (t : list event) : nat :=
  length (List.filter is_server_run t).

(** ** The profile format, on strings *)

(** The part of [s] before the first [c] and, when there is one, the part
    after it. *)
Fixpoint split_at (c : ascii) (s : cstring) : cstring * option cstring :=
  match s with
  | [] => ([], None)
  | x :: s' =>
      if Ascii.eqb x c then ([], Some s')
      else let '(a, r) := split_at c s' in (x :: a, r)
  end.

(** "the first [=] within each pair for name/value. A pair with no [=]
    yields an empty-string value" *)
Definition spec_pair (seg : cstring) : cstring * cstring :=
  let '(n, v) := split_at "=" seg in (n, default [] v).

(** "subsequent splitting is on [,] for pairs"; "Parsing stops silently
    after 32 pairs are collected (bounded capacity) or when the remaining
    text is exhausted" *)
Fixpoint spec_pairs (capacity : nat) (rest : cstring) : list (cstring * cstring) :=
  match capacity with
  | 0 => []
  | S capacity' =>
      match rest with
      | [] => []
      | _ :: _ =>
          let '(seg, r) := split_at "," rest in
          spec_pair seg ::
            match r with
            | Some rest' => spec_pairs capacity' rest'
            | None => []
            end
      end
  end.

(** "Input longer than an internal scratch bound is truncated to that bound
    before parsing" *)
Definition scratch_text (profile : cstring) : cstring :=
  take (ARGS_SIZE - 1) (c_str profile).

(** "the first [:] terminates the driver name"; "If no [:] is present, the
    entire string is the driver name and the argument list is empty" *)
Definition spec_parse (profile : cstring) : cstring * list (cstring * cstring) :=
  let '(d, r) := split_at ":" (scratch_text profile) in
  (d, match r with
      | Some rest => spec_pairs MAX_ARGS rest
      | None => []
      end).

(** The two arrays that hold [pairs]: the names, respectively the values,
    followed by null pointers up to 32 entries. *)
Definition as_parsed (spec : cstring * list (cstring * cstring)) : parsed_profile :=
  {| driverName := spec.1;
     argNames := (Some <$> spec.2.*1) ++ replicate (MAX_ARGS - length spec.2) None;
     argValues := (Some <$> spec.2.*2) ++ replicate (MAX_ARGS - length spec.2) None |}.

(** The text of a profile with the driver name [d] and the pair texts
    [segs]. *)
Fixpoint join (sep : ascii) (segs : list cstring) : cstring :=
  match segs with
  | [] => []
  | [seg] => seg
  | seg :: segs' => seg ++ sep :: join sep segs'
  end.

Definition pair_text (p : cstring * cstring) : cstring := p.1 ++ "=" :: p.2.

Definition nul_free (s : cstring) : Prop := NUL ∉ s.

(** The pair texts of [join "," segs]: an empty text after the last comma
    is no pair. *)
Fixpoint pair_texts (segs : list cstring) : list cstring :=
  match segs with
  | [] => []
  | [seg] => match seg with [] => [] | _ :: _ => [seg] end
  | seg :: segs' => seg :: pair_texts segs'
  end.

Definition profile_text (d : cstring) (segs : list cstring) : cstring :=
  d ++ ":" :: join "," segs.

(** The pairs that the profile format finds in [profile] when up to
    [capacity] of them are collected. *)
Definition pairs_with_capacity (capacity : nat) (profile : cstring)
  : list (cstring * cstring) :=
  match split_at ":" (scratch_text profile) with
  | (_, Some rest) => spec_pairs capacity rest
  | (_, None) => []
  end.

(** A pair [name=value] of a well-formed profile: no separator of the
    format inside the name or the value. *)
Definition wf_pair (p : cstring * cstring) : Prop :=
  nul_free p.1 ∧ ("=" ∉ p.1) ∧ ("," ∉ p.1) ∧ nul_free p.2 ∧ ("," ∉ p.2).

(** The profile that [activate_driver] parses: the one the alias loop is
    left with. *)
Definition resolve_alias (table : list txvc_profile_alias) (profile : cstring)
  : cstring :=
  match alias_loop table profile with
  | Some (p, _) => p
  | None => profile
  end.

(** No entry of the table has [profile] as its alias. *)
Definition matches_no_alias (table : list txvc_profile_alias) (profile : cstring)
  : Prop :=
  Forall (λ a, strcmp profile (Alias.alias a) ≠ 0%Z) table.

(** ** Auxiliary notions of the proofs *)

(** The buffer after the iteration that cut [seg] off the text, [r] being
    what follows the comma, when there is one. *)
Definition cut_pair (seg : cstring) : list ascii :=
  match split_at "=" seg with
  | (nm, Some vl) => nm ++ NUL :: vl
  | (nm, None) => nm
  end.

(** Where [argValues[i]] points after that iteration, [base] being the
    offset of the pair. *)
Definition value_ptr (base : nat) (seg : cstring) : ptr :=
  match split_at "=" seg with
  | (nm, Some _) => InArgs (S (base + length nm))
  | (_, None) => EmptyLit
  end.

(** Through [b], the pointers [ptrs] read the strings [strs]. *)
Definition reads (b : buffer) (ptrs : list ptr) (strs : list cstring) : Prop :=
  Forall2 (λ p s, deref b p = Some s) ptrs strs.

(** What [activate_driver] returns and logs after the alias loop. *)
Definition activation_outcome (drivers : list txvc_driver) (pp : parsed_profile)
  : option txvc_driver * list event :=
  match txvc_enumerate_drivers drivers find_by_name (driverName pp) with
  | Some d =>
      if Driver.activate d (argNames pp) (argValues pp)
      then (Some d, [EActivate (Driver.name d) (argNames pp) (argValues pp)])
      else (None, [EActivate (Driver.name d) (argNames pp) (argValues pp);
                   ELog LOG_ERROR MsgFailedToActivate [driverName pp]])
  | None => (None, [ELog LOG_ERROR MsgCanNotFindDriver [driverName pp]])
  end.

(** What [main] logs once [activate_driver] has returned [d]. *)
Definition serving (serverAddr : cstring) (d : option txvc_driver) : list event :=
  match d with
  | Some d =>
      ERunServer serverAddr (Driver.name d) :: EDeactivate (Driver.name d) ::
      (if Driver.deactivate d tt then []
       else [ELog LOG_WARN MsgFailedToDeactivate [Driver.name d]])
  | None => []
  end.

(** ** What the parser leaves in memory *)

(** The three characters that the parser overwrites. *)
Definition separator (c : ascii) : Prop := c = ":" ∨ c = "," ∨ c = "=".

(** [b] is [b0] with some of its separators overwritten by NUL. *)
Definition cut_from (b0 b : buffer) : Prop :=
  length b = length b0 ∧
  ∀ k c, b0 !! k = Some c →
         b !! k = Some c ∨ (separator c ∧ b !! k = Some NUL).

(** The profile format's reading of a text, with no cut before it: "the
    first [:] terminates the driver name", the rest is split into pairs. *)
Definition read_format (text : cstring) : cstring * list (cstring * cstring) :=
  let '(d, r) := split_at ":" text in
  (d, match r with
      | Some rest => spec_pairs MAX_ARGS rest
      | None => []
      end).

(** ** Further observations on a trace *)

Definition is_error (e : event) : bool :=
  match e with ELog LOG_ERROR _ _ => true | _ => false end.

Definition is_deactivation (e : event) : bool :=
  match e with EDeactivate _ => true | _ => false end.

Definition errors (t : list event) : nat := length (List.filter is_error t).
Definition deactivations (t : list event) : nat :=
  length (List.filter is_deactivation t).

(** The two lines that the alias loop logs when [a] matches. *)
Definition alias_log (a : txvc_profile_alias) : list event :=
  [ELog LOG_INFO MsgFoundAlias [Alias.alias a; Alias.description a];
   ELog LOG_INFO MsgUsingProfile [Alias.profile a]].

(** The exit status of [main] as a function of the command line alone. *)
Definition exit_status (parsed : bool) (opts : cli_options) : Z :=
  if negb parsed then EXIT_FAILURE
  else if Cli.help opts then EXIT_SUCCESS
  else match Cli.profile opts with
       | None => EXIT_FAILURE
       | Some _ => 0%Z
       end.

(** ** The command line (lines 35-50 and 92-124) *)

(** The field of [struct cli_options] that a row of CLI_OPTION_LIST_ITEMS
    names; the row's initializer is [optarg] for the first two and [true]
    for the last two. *)
Inductive cli_field : Type := FServerAddr | FProfile | FVerbose | FHelp.

Record cli_option : Type := {
  field : cli_field;
  optChar : ascii;
  optArg : string;
  description : string
}.

Definition CLI_OPTION_LIST_ITEMS : list cli_option :=
  [ {| field := FServerAddr; optChar := "a"; optArg := " <ipv4_address:port>";
       description := "Colon-separated IPv4 address and port to listen for incoming XVC connections at (default: 127.0.0.1:2542)" |};
    {| field := FProfile; optChar := "p"; optArg := " <profile_string_or_alias>";
       description := "Server HW profile or profile alias, see below" |};
    {| field := FVerbose; optChar := "v"; optArg := "";
       description := "Enable verbose output" |};
    {| field := FHelp; optChar := "h"; optArg := "";
       description := "Print this message" |} ].

(** AS_OPTSTR_ENTRY: the option character, followed by ':' when the option
    takes an argument. *)
Definition optstr_entry (o : cli_option) : cstring :=
  match optArg o with
  | EmptyString => [optChar o]
  | String _ _ => [optChar o; ":"]
  end.

(** [snprintf(optstring, sizeof(optstring), "%s%s%s%s", ...)] into
    [char optstring[128]]. *)
Definition optstring : cstring :=
  take 127 (concat (optstr_entry <$> CLI_OPTION_LIST_ITEMS)).

(** [struct cli_options opts = { 0 }] *)
Definition zero_options : cli_options :=
  {| Cli.serverAddr := None; Cli.profile := None;
     Cli.verbose := false; Cli.help := false |}.

(** A character as the [int] that [getopt] returns. *)
Definition char_code (c : ascii) : Z := Z.of_nat (nat_of_ascii c).

(** APPLY_OPTION: [out->name = initializer]. *)
Definition apply_option (f : cli_field) (optarg : option cstring)
    (out : cli_options) : cli_options :=
  match f with
  | FServerAddr =>
      {| Cli.serverAddr := optarg; Cli.profile := Cli.profile out;
         Cli.verbose := Cli.verbose out; Cli.help := Cli.help out |}
  | FProfile =>
      {| Cli.serverAddr := Cli.serverAddr out; Cli.profile := optarg;
         Cli.verbose := Cli.verbose out; Cli.help := Cli.help out |}
  | FVerbose =>
      {| Cli.serverAddr := Cli.serverAddr out; Cli.profile := Cli.profile out;
         Cli.verbose := true; Cli.help := Cli.help out |}
  | FHelp =>
      {| Cli.serverAddr := Cli.serverAddr out; Cli.profile := Cli.profile out;
         Cli.verbose := Cli.verbose out; Cli.help := true |}
  end.

(** The [while] loop over [getopt]. [getopt] is the C library's: the values
    it returns before -1, each with the [optarg] it leaves, are the input
    [results]. The first row whose character equals [opt] is applied; with
    no such row the function returns [false]. *)
Fixpoint getopt_loop (results : list (Z * option cstring)) (out : cli_options)
  : bool * cli_options :=
  match results with
  | [] => (true, out)
  | (opt, optarg) :: results' =>
      match List.find (λ o, Z.eqb opt (char_code (optChar o)))
                      CLI_OPTION_LIST_ITEMS with
      | Some o => getopt_loop results' (apply_option (field o) optarg out)
      | None => (false, out)
      end
  end.

(** What [parse_cli_options] writes to stderr itself. *)
Inductive stderr_line : Type :=
  | UnrecognizedExtraOperands (progname : cstring).

(** [parse_cli_options]: its result, [*out] as it leaves it, and its own
    output. [operand] is [argv[optind]] once [getopt] has returned -1. *)
Definition parse_cli_options (progname : cstring)
    (results : list (Z * option cstring)) (operand : option cstring)
    (out : cli_options) : bool * cli_options * list stderr_line :=
  let '(ok, out') := getopt_loop results out in
  if ok then
    match operand with
    | Some _ => (false, out', [UnrecognizedExtraOperands progname])
    | None => (true, out', [])
    end
  else (false, out', []).

(** The program: [main] from its first line. *)
Definition main_argv (aliases : list txvc_profile_alias)
    (drivers : list txvc_driver) (progname : cstring)
    (results : list (Z * option cstring)) (operand : option cstring)
  : list stderr_line * M Z :=
  let '(ok, opts, err) := parse_cli_options progname results operand zero_options in
  (err, main aliases drivers progname ok opts).

(** The command line, option by option: the argument of the last [-c], and
    whether [-c] occurs. *)
Definition latest (c : ascii) (results : list (Z * option cstring))
    (init : option cstring) : option cstring :=
  fold_left (λ acc r, if Z.eqb r.1 (char_code c) then r.2 else acc) results init.

Definition given (c : ascii) (results : list (Z * option cstring)) : bool :=
  existsb (λ r, Z.eqb r.1 (char_code c)) results.

Definition recognised (r : Z * option cstring) : bool :=
  existsb (λ c, Z.eqb r.1 (char_code c)) ["a"; "p"; "v"; "h"].

(** ** Inputs used below *)

Definition mk_alias (a p : string) : txvc_profile_alias :=
  {| Alias.alias := lit a; Alias.profile := lit p; Alias.description := lit "" |}.

(** An alias that names itself, and two aliases that name each other. *)
Definition self_alias : list txvc_profile_alias := [mk_alias "a" "a"].
Definition mutual_aliases : list txvc_profile_alias :=
  [mk_alias "a" "b"; mk_alias "b" "a"].

(** The alias table of the spec's scenario. *)
Definition board_aliases : list txvc_profile_alias :=
  [mk_alias "unknownboard" "jtag:freq=500000"].

(** A registry with one driver, whose activation and deactivation succeed. *)
Definition jtag : txvc_driver :=
  {| Driver.name := lit "jtag"; Driver.help := lit "";
     Driver.activate := λ _ _, true; Driver.deactivate := λ _, true |}.

Definition opts_with_profile (p : string) : cli_options :=
  {| Cli.serverAddr := None; Cli.profile := Some (lit p);
     Cli.verbose := false; Cli.help := false |}.

(** The profile of the spec's scenario, by its parts. *)
Definition jtag_pairs : list (cstring * cstring) :=
  [(lit "freq", lit "1000000"); (lit "vref", lit "3.3")].

(** 33 well-formed pairs, and one pair whose name alone is 1024 bytes. *)
Definition many_pairs : list (cstring * cstring) :=
  replicate 33 (lit "a", lit "1").
Definition long_pair : cstring * cstring := (replicate ARGS_SIZE "x", lit "1").

(** 32 pairs followed by a pair without '='. *)
Definition flag_last : list cstring := replicate 32 (lit "a=1") ++ [lit "flag"].

(** A profile of 1034 bytes: a driver name and one pair whose value runs
    beyond the scratch buffer. *)
Definition long_profile : cstring := lit "jtag:freq=" ++ replicate ARGS_SIZE "9".

(** A driver name of 1024 bytes. *)
Definition long_name : cstring := replicate ARGS_SIZE "x".

(** * Properties *)

(** ** Characters and C strings *)

Lemma eqb_refl' (c : ascii) : Ascii.eqb c c = true.
Proof. by apply Ascii.eqb_eq. Qed.

Lemma eqb_ne (x c : ascii) : x ≠ c → Ascii.eqb x c = false.
Proof. by intros; apply Ascii.eqb_neq. Qed.

Lemma c_str_nul_free (s : cstring) : nul_free (c_str s).
Proof.
  unfold nul_free. induction s as [|x s IH]; simpl.
  - apply not_elem_of_nil.
  - destruct (Ascii.eqb_spec x NUL) as [->|Hx].
    + apply not_elem_of_nil.
    + apply not_elem_of_cons. auto.
Qed.

Lemma c_str_id (s : cstring) : nul_free s → c_str s = s.
Proof.
  unfold nul_free. induction s as [|x s IH]; simpl; [done|].
  intros [Hx Hs]%not_elem_of_cons.
  rewrite eqb_ne by congruence. by rewrite IH.
Qed.

Lemma nul_free_take (n : nat) (s : cstring) : nul_free s → nul_free (take n s).
Proof. unfold nul_free. intros H Hin. apply H. by apply (subseteq_take n s). Qed.

Lemma strcmp_refl (a : cstring) : strcmp a a = 0%Z.
Proof.
  induction a as [|x a IH]; simpl; [done|].
  rewrite eqb_refl'. by destruct (Ascii.eqb x NUL).
Qed.

Lemma strcmp_eq (a b : cstring) :
  nul_free a → nul_free b → strcmp a b = 0%Z → a = b.
Proof.
  unfold nul_free. revert b. induction a as [|x a IH]; intros [|y b] Ha Hb; simpl.
  - done.
  - apply not_elem_of_cons in Hb as [Hy _]. intros H.
    assert (nat_of_ascii y = 0) as H0 by lia.
    destruct Hy. rewrite <- (ascii_nat_embedding y), H0. done.
  - apply not_elem_of_cons in Ha as [Hx _]. intros H.
    assert (nat_of_ascii x = 0) as H0 by lia.
    destruct Hx. rewrite <- (ascii_nat_embedding x), H0. done.
  - apply not_elem_of_cons in Ha as [Hx Ha].
    apply not_elem_of_cons in Hb as [Hy Hb].
    destruct (Ascii.eqb_spec x y) as [->|Hxy].
    + rewrite eqb_ne by congruence. intros H. f_equal. by apply IH.
    + intros H. destruct Hxy.
      rewrite <- (ascii_nat_embedding x), <- (ascii_nat_embedding y).
      f_equal. lia.
Qed.

(** ** Splitting a string at a character *)

Lemma split_at_Some (c : ascii) (s a r : cstring) :
  split_at c s = (a, Some r) → s = a ++ c :: r ∧ c ∉ a.
Proof.
  revert a. induction s as [|x s IH]; intros a; simpl; [done|].
  destruct (Ascii.eqb_spec x c) as [->|Hx].
  - intros [= <- <-]. split; [done|apply not_elem_of_nil].
  - destruct (split_at c s) as [a' r'] eqn:E. intros [= <- ->].
    destruct (IH a' eq_refl) as [-> Ha]. split; [done|].
    apply not_elem_of_cons. split; [congruence|done].
Qed.

Lemma split_at_None (c : ascii) (s a : cstring) :
  split_at c s = (a, None) → a = s ∧ c ∉ s.
Proof.
  revert a. induction s as [|x s IH]; intros a; simpl.
  - intros [= <-]. split; [done|apply not_elem_of_nil].
  - destruct (Ascii.eqb_spec x c) as [->|Hx]; [done|].
    destruct (split_at c s) as [a' r'] eqn:E. intros [= <- ->].
    destruct (IH a' eq_refl) as [-> Ha]. split; [done|].
    apply not_elem_of_cons. split; [congruence|done].
Qed.

Lemma split_at_app (c : ascii) (a r : cstring) :
  c ∉ a → split_at c (a ++ c :: r) = (a, Some r).
Proof.
  induction a as [|x a IH]; simpl.
  - intros _. by rewrite eqb_refl'.
  - intros [Hx Ha]%not_elem_of_cons.
    rewrite eqb_ne by congruence. by rewrite IH.
Qed.

Lemma split_at_absent (c : ascii) (s : cstring) :
  c ∉ s → split_at c s = (s, None).
Proof.
  induction s as [|x s IH]; simpl; [done|].
  intros [Hx Hs]%not_elem_of_cons.
  rewrite eqb_ne by congruence. by rewrite IH.
Qed.

(** ** The primitives on a buffer [pre ++ s ++ NUL :: t] *)

Lemma strncpy_store (s : cstring) (n : nat) :
  store (strncpy s (S n)) n NUL =
  Some (take n (c_str s) ++ NUL :: replicate (n - length (take n (c_str s))) NUL).
Proof.
  unfold store. revert s. induction n as [|n IH]; intros s.
  - destruct s as [|c s]; simpl; [done|]. by destruct (Ascii.eqb c NUL).
  - assert (∀ m, m = S (S n) →
              match replicate m NUL !! S n with
              | Some _ => Some (<[S n:=NUL]> (replicate m NUL))
              | None => None
              end = Some (NUL :: replicate (S n) NUL)) as Hpad.
    { intros m ->. rewrite lookup_replicate_2 by lia.
      by rewrite insert_replicate. }
    destruct s as [|c s].
    + by apply Hpad.
    + change (strncpy (c :: s) (S (S n)))
        with (if Ascii.eqb c NUL then replicate (S (S n)) NUL
              else c :: strncpy s (S n)).
      cbn [c_str]. destruct (Ascii.eqb c NUL); [by apply Hpad|].
      specialize (IH s). remember (strncpy s (S n)) as b eqn:Hb. clear Hb.
      change ((c :: b) !! S n) with (b !! n).
      change (<[S n:=NUL]> (c :: b)) with (c :: <[n:=NUL]> b).
      destruct (b !! n); [|done].
      injection IH as ->. done.
Qed.

Lemma strchr_from_split (c : ascii) (s t : list ascii) (p : nat) :
  nul_free s → c ≠ NUL →
  strchr_from (s ++ NUL :: t) p c =
  Some (match split_at c s with
        | (a, Some _) => Some (p + length a)
        | (_, None) => None
        end).
Proof.
  unfold nul_free. intros Hs Hc. revert p.
  induction s as [|x s IH]; intros p; cbn [app strchr_from split_at].
  - rewrite eqb_ne by congruence. by rewrite eqb_refl'.
  - apply not_elem_of_cons in Hs as [Hx Hs].
    destruct (Ascii.eqb_spec x c) as [->|Hxc].
    + simpl. do 2 f_equal. lia.
    + rewrite eqb_ne by congruence. rewrite IH by done.
      destruct (split_at c s) as [a [r|]]; simpl; [|done].
      do 2 f_equal. lia.
Qed.

Lemma strchr_split (c : ascii) (pre s t : list ascii) :
  nul_free s → c ≠ NUL →
  strchr (pre ++ s ++ NUL :: t) (length pre) c =
  Some (match split_at c s with
        | (a, Some _) => Some (length pre + length a)
        | (_, None) => None
        end).
Proof.
  intros. unfold strchr. rewrite drop_app_length. by apply strchr_from_split.
Qed.

Lemma store_middle (pre t : list ascii) (x c : ascii) (p : nat) :
  p = length pre → store (pre ++ x :: t) p c = Some (pre ++ c :: t).
Proof.
  intros ->. unfold store. rewrite list_lookup_middle by done.
  replace (length pre) with (length pre + 0) at 1 by lia.
  by rewrite insert_app_r.
Qed.

Lemma cstr_from_app (s t : list ascii) :
  nul_free s → cstr_from (s ++ NUL :: t) = Some s.
Proof.
  unfold nul_free. induction s as [|x s IH]; cbn [app cstr_from].
  - by rewrite eqb_refl'.
  - intros [Hx Hs]%not_elem_of_cons.
    rewrite eqb_ne by congruence. by rewrite IH.
Qed.

Lemma read_cstr_app (b pre s t : list ascii) (p : nat) :
  b = pre ++ s ++ NUL :: t → p = length pre → nul_free s →
  read_cstr b p = Some s.
Proof.
  intros -> -> Hs. unfold read_cstr. rewrite drop_app_length.
  by apply cstr_from_app.
Qed.

Lemma load_middle (pre t : list ascii) (x : ascii) :
  load (pre ++ x :: t) (length pre) = Some x.
Proof. unfold load. by apply list_lookup_middle. Qed.

Lemma arr_set_lt (arr : list (option ptr)) (i : nat) (v : option ptr) :
  i < length arr → arr_set arr i v = Some (<[i := v]> arr).
Proof.
  intros Hi. unfold arr_set.
  destruct (lookup_lt_is_Some_2 arr i Hi) as [x ->]. done.
Qed.

(** ** One iteration of the pair loop *)

Lemma store_at (b pre t : list ascii) (x c : ascii) (p : nat) :
  b = pre ++ x :: t → p = length pre → store b p c = Some (pre ++ c :: t).
Proof. intros -> ->. by apply store_middle. Qed.

Lemma cut_pair_length (seg : cstring) : length (cut_pair seg) = length seg.
Proof.
  unfold cut_pair. destruct (split_at "=" seg) as [nm [vl|]] eqn:E.
  - apply split_at_Some in E as [-> _]. rewrite !length_app. done.
  - by apply split_at_None in E as [-> _].
Qed.

Lemma pair_body_spec (i : nat) (pre rest t : list ascii) (cur : option nat)
    (names values : list (option ptr)) :
  nul_free rest → i < length names → i < length values →
  pair_body i {| ps_args := pre ++ rest ++ NUL :: t; ps_cur := cur;
                 ps_names := names; ps_values := values |} (length pre) =
  let '(seg, r) := split_at "," rest in
  Some {| ps_args := pre ++ cut_pair seg ++ NUL ::
                       match r with Some r' => r' ++ NUL :: t | None => t end;
          ps_cur := match r with
                    | Some _ => Some (S (length pre + length seg))
                    | None => None
                    end;
          ps_names := <[i := Some (InArgs (length pre))]> names;
          ps_values :=
            <[i := Some (value_ptr (length pre) seg)]> values |}.
Proof.
  intros Hrest Hn Hv. unfold pair_body. cbn [ps_args ps_names ps_values].
  rewrite strchr_split by done.
  destruct (split_at "," rest) as [seg r] eqn:Hseg.
  set (t1 := match r with Some r' => r' ++ NUL :: t | None => t end).
  assert (nul_free seg) as Hsegnf.
  { destruct r as [r|].
    - apply split_at_Some in Hseg as [-> _].
      by apply not_elem_of_app in Hrest as [? _].
    - by apply split_at_None in Hseg as [-> _]. }
  assert (∀ cur1,
    (names1 ← arr_set names i (Some (InArgs (length pre)));
     eq ← strchr (pre ++ seg ++ NUL :: t1) (length pre) "=";
     match eq with
     | Some k =>
         args2 ← store (pre ++ seg ++ NUL :: t1) k NUL;
         values1 ← arr_set values i (Some (InArgs (S k)));
         Some {| ps_args := args2; ps_cur := cur1;
                 ps_names := names1; ps_values := values1 |}
     | None =>
         values1 ← arr_set values i (Some EmptyLit);
         Some {| ps_args := pre ++ seg ++ NUL :: t1; ps_cur := cur1;
                 ps_names := names1; ps_values := values1 |}
     end) =
    Some {| ps_args := pre ++ cut_pair seg ++ NUL :: t1; ps_cur := cur1;
            ps_names := <[i := Some (InArgs (length pre))]> names;
            ps_values :=
              <[i := Some (value_ptr (length pre) seg)]> values |}) as Hequals.
  { intros cur1. rewrite strchr_split by done.
    rewrite (arr_set_lt names), !(arr_set_lt values) by done.
    cbn [mbind option_bind].
    unfold cut_pair, value_ptr. destruct (split_at "=" seg) as [nm [vl|]] eqn:Hnm;
      [|by apply split_at_None in Hnm as [-> _]].
    apply split_at_Some in Hnm as [-> _].
    rewrite (store_at _ (pre ++ nm) (vl ++ NUL :: t1) "=" NUL).
    - cbn [mbind option_bind]. rewrite arr_set_lt by done.
      cbn [mbind option_bind]. by rewrite <- !app_assoc.
    - by rewrite <- !app_assoc.
    - by rewrite length_app. }
  destruct r as [r|]; cbn [mbind option_bind].
  - apply split_at_Some in Hseg as [-> _].
    rewrite (store_at _ (pre ++ seg) (r ++ NUL :: t) "," NUL).
    + cbn [mbind option_bind]. rewrite <- app_assoc. apply Hequals.
    + by rewrite <- !app_assoc.
    + by rewrite length_app.
  - apply split_at_None in Hseg as [-> _]. apply Hequals.
Qed.

Lemma read_cut_pair (b pre seg t : list ascii) :
  b = pre ++ cut_pair seg ++ NUL :: t → nul_free seg →
  deref b (InArgs (length pre)) = Some (spec_pair seg).1 ∧
  deref b (value_ptr (length pre) seg) = Some (spec_pair seg).2.
Proof.
  intros -> Hseg. unfold cut_pair, value_ptr, spec_pair.
  destruct (split_at "=" seg) as [nm [vl|]] eqn:Hnm; cbn [fst snd default deref].
  - apply split_at_Some in Hnm as [-> _].
    apply not_elem_of_app in Hseg as [Hn [_ Hv]%not_elem_of_cons]. split.
    + apply (read_cstr_app _ pre nm (vl ++ NUL :: t)); [|done..].
      by rewrite <- !app_assoc.
    + apply (read_cstr_app _ (pre ++ nm ++ [NUL]) vl t); [|..|done].
      * by rewrite <- !app_assoc.
      * rewrite !length_app. simpl. lia.
  - apply split_at_None in Hnm as [-> _]. split; [|done].
    by apply (read_cstr_app _ pre seg t).
Qed.

(** ** The pair loop *)

Lemma pair_loop_done (n i : nat) (st : parse_state) :
  ps_cur st = None → pair_loop n i st = Some st.
Proof. intros H. destruct n; simpl; [done|]. by rewrite H. Qed.

Lemma fill_step (arr : list (option ptr)) (i : nat) (p : ptr) (N : list ptr) :
  i < length arr →
  take (S i) (<[i := Some p]> arr) ++ (Some <$> N) ++
    drop (S i + length N) (<[i := Some p]> arr) =
  take i arr ++ (Some <$> p :: N) ++ drop (i + length (p :: N)) arr.
Proof.
  intros Hi. rewrite (take_S_r _ _ (Some p)) by by apply list_lookup_insert_eq.
  rewrite take_insert_ge, drop_insert_lt by lia.
  rewrite <- app_assoc. cbn [length fmap list_fmap app].
  by replace (i + S (length N)) with (S i + length N) by lia.
Qed.

Lemma pair_loop_spec (n : nat) :
  ∀ (i : nat) (pre rest t : list ascii) (names values : list (option ptr)),
    nul_free rest → i + n ≤ length names → i + n ≤ length values →
    ∃ st body N V,
      pair_loop n i {| ps_args := pre ++ rest ++ NUL :: t;
                       ps_cur := Some (length pre);
                       ps_names := names; ps_values := values |} = Some st ∧
      ps_args st = pre ++ body ∧
      ps_names st = take i names ++ (Some <$> N) ++ drop (i + length N) names ∧
      ps_values st = take i values ++ (Some <$> V) ++ drop (i + length V) values ∧
      reads (pre ++ body) N (spec_pairs n rest).*1 ∧
      reads (pre ++ body) V (spec_pairs n rest).*2.
Proof.
  assert (∀ i pre rest t names values,
    ∃ st body N V,
      Some {| ps_args := pre ++ rest ++ NUL :: t; ps_cur := Some (length pre);
              ps_names := names; ps_values := values |} = Some st ∧
      ps_args st = pre ++ body ∧
      ps_names st = take i names ++ (Some <$> N) ++ drop (i + length N) names ∧
      ps_values st = take i values ++ (Some <$> V) ++ drop (i + length V) values ∧
      reads (pre ++ body) N ([] : list (cstring * cstring)).*1 ∧
      reads (pre ++ body) V ([] : list (cstring * cstring)).*2) as Hstop.
  { intros i pre rest t names values.
    eexists _, (rest ++ NUL :: t), [], []. cbn [length fmap list_fmap app ps_args ps_names ps_values].
    rewrite Nat.add_0_r, !take_drop. repeat split; constructor. }
  induction n as [|n IH]; intros i pre rest t names values Hrest Hn Hv.
  - by apply Hstop.
  - cbn [pair_loop ps_cur ps_args]. destruct rest as [|x rest'].
    + cbn [app]. rewrite load_middle. cbn [mbind option_bind].
      rewrite eqb_refl'. by apply (Hstop i pre [] t names values).
    + pose proof Hrest as [Hx _]%not_elem_of_cons.
      cbn [app]. rewrite load_middle. cbn [mbind option_bind].
      rewrite eqb_ne by congruence.
      change (pre ++ x :: rest' ++ NUL :: t) with (pre ++ (x :: rest') ++ NUL :: t).
      rewrite pair_body_spec by (done || lia).
      cbn [spec_pairs].
      destruct (split_at "," (x :: rest')) as [seg [r|]] eqn:Hseg.
      * pose proof Hseg as [Heq _]%split_at_Some.
        assert (nul_free seg ∧ nul_free r) as [Hsegnf Hr].
        { rewrite Heq in Hrest.
          apply not_elem_of_app in Hrest as [? [_ ?]%not_elem_of_cons]. done. }
        destruct (IH (S i) (pre ++ cut_pair seg ++ [NUL]) r t
                    (<[i := Some (InArgs (length pre))]> names)
                    (<[i := Some (value_ptr (length pre) seg)]> values))
          as (st & body & N & V & Hrun & Hargs & Hnames & Hvalues & HN & HV);
          [done | rewrite length_insert; lia..|].
        replace (length (pre ++ cut_pair seg ++ [NUL]))
          with (S (length pre + length seg)) in Hrun
          by (rewrite !length_app, cut_pair_length; simpl; lia).
        rewrite <- !app_assoc in Hrun, Hargs, HN, HV. cbn [app] in *.
        exists st, (cut_pair seg ++ NUL :: body),
          (InArgs (length pre) :: N), (value_ptr (length pre) seg :: V).
        destruct (read_cut_pair (pre ++ cut_pair seg ++ NUL :: body)
                    pre seg body eq_refl Hsegnf) as [Hname Hvalue].
        split; [exact Hrun|]. split; [exact Hargs|].
        split; [rewrite Hnames; apply fill_step; lia|].
        split; [rewrite Hvalues; apply fill_step; lia|].
        split; by constructor.
      * pose proof Hseg as [-> _]%split_at_None.
        cbn [mbind option_bind]. rewrite pair_loop_done by done.
        eexists _, (cut_pair (x :: rest') ++ NUL :: t),
          [InArgs (length pre)], [value_ptr (length pre) (x :: rest')].
        destruct (read_cut_pair (pre ++ cut_pair (x :: rest') ++ NUL :: t)
                    pre (x :: rest') t eq_refl Hrest) as [Hname Hvalue].
        cbn [ps_args ps_names ps_values length fmap list_fmap app].
        split; [done|]. split; [done|].
        split; [replace (i + 1) with (S i) by lia; apply insert_take_drop; lia|].
        split; [replace (i + 1) with (S i) by lia; apply insert_take_drop; lia|].
        split; repeat constructor; done.
Qed.

(** ** The parser computes the profile format *)

Lemma view_reads (b : buffer) (N : list ptr) (strs : list cstring) (k : nat) :
  reads b N strs →
  view b ((Some <$> N) ++ replicate k None) =
  Some ((Some <$> strs) ++ replicate k None).
Proof.
  intros HN. unfold view. apply mapM_Some_2. apply Forall2_app.
  - apply Forall2_fmap_2. eapply Forall2_impl; [exact HN|].
    intros p s Hp. cbn beta. by rewrite Hp.
  - by apply Forall2_replicate.
Qed.

Lemma scratch_text_nul_free (profile : cstring) : nul_free (scratch_text profile).
Proof. apply nul_free_take, c_str_nul_free. Qed.

Lemma scratch_buffer (profile : cstring) :
  store (strncpy profile ARGS_SIZE) (ARGS_SIZE - 1) NUL =
  Some (scratch_text profile ++
        NUL :: replicate (ARGS_SIZE - 1 - length (scratch_text profile)) NUL).
Proof. apply (strncpy_store profile 1023). Qed.

(** For every profile, the parser runs to completion without leaving the
    scratch buffer or the two arrays, and what it hands on is the driver
    name and the pairs of the profile format. *)
Theorem parse_refines (profile : cstring) :
  parse profile = Some (as_parsed (spec_parse profile)).
Proof.
  unfold parse, parse_profile. rewrite scratch_buffer. cbn [mbind option_bind].
  pose proof (scratch_text_nul_free profile) as Htext.
  unfold spec_parse. set (text := scratch_text profile) in *.
  set (pad := replicate (ARGS_SIZE - 1 - length text) NUL).
  pose proof (strchr_split ":" [] text pad Htext ltac:(done)) as Hcolon.
  cbn [app length Nat.add] in Hcolon. rewrite Hcolon. clear Hcolon.
  cbn [mbind option_bind].
  destruct (split_at ":" text) as [d [rest|]] eqn:Hd.
  - apply split_at_Some in Hd as [Hd _]. rewrite Hd in *.
    apply not_elem_of_app in Htext as [Hdnf [_ Hrest]%not_elem_of_cons].
    rewrite (store_at _ d (rest ++ NUL :: pad) ":" NUL)
      by (done || by rewrite <- app_assoc).
    cbn [mbind option_bind ps_names ps_values].
    destruct (pair_loop_spec MAX_ARGS 0 (d ++ [NUL]) rest pad
                (replicate MAX_ARGS None) (replicate MAX_ARGS None))
      as (st & body & N & V & Hrun & Hargs & Hnames & Hvalues & HN & HV);
      [done | by rewrite length_replicate..|].
    replace (length (d ++ [NUL])) with (S (length d)) in Hrun
      by (rewrite length_app; simpl; lia).
    rewrite <- !app_assoc in Hrun, Hargs, HN, HV. cbn [app] in *.
    rewrite Hrun. cbn [mbind option_bind].
    rewrite Hargs, Hnames, Hvalues.
    rewrite (read_cstr_app _ [] d body) by done. cbn [mbind option_bind].
    pose proof (Forall2_length _ _ _ HN) as HlenN.
    pose proof (Forall2_length _ _ _ HV) as HlenV.
    rewrite !length_fmap in HlenN, HlenV.
    rewrite !take_0. cbn [app Nat.add]. rewrite !drop_replicate.
    rewrite (view_reads _ _ _ _ HN), (view_reads _ _ _ _ HV).
    cbn [mbind option_bind]. unfold as_parsed. cbn [fst snd].
    by rewrite HlenN, HlenV.
  - apply split_at_None in Hd as [-> _].
    cbn [mbind option_bind ps_args ps_names ps_values].
    rewrite (read_cstr_app _ [] text pad) by done. cbn [mbind option_bind].
    pose proof (view_reads (text ++ NUL :: pad) [] [] MAX_ARGS) as Hview.
    cbn [fmap list_fmap app] in Hview. rewrite Hview by constructor. done.
Qed.

(** ** The profile format on texts built from their parts *)

Lemma spec_pairs_nil (n : nat) : spec_pairs n [] = [].
Proof. by destruct n. Qed.

(** A smaller capacity keeps a prefix of the pairs. *)
Lemma spec_pairs_take (n m : nat) (rest : cstring) :
  n ≤ m → spec_pairs n rest = take n (spec_pairs m rest).
Proof.
  revert m rest. induction n as [|n IH]; intros m rest Hnm; [done|].
  destruct m as [|m]; [lia|]. destruct rest as [|x rest]; [done|].
  cbn [spec_pairs]. destruct (split_at "," (x :: rest)) as [seg [r|]].
  - cbn [take]. f_equal. apply IH. lia.
  - cbn [take]. by rewrite take_nil.
Qed.

Lemma spec_pairs_length (n : nat) (rest : cstring) :
  length (spec_pairs n rest) ≤ n.
Proof.
  revert rest. induction n as [|n IH]; intros rest; [done|].
  destruct rest as [|x rest]; [simpl; lia|].
  cbn [spec_pairs]. destruct (split_at "," (x :: rest)) as [seg [r|]].
  - cbn [length]. specialize (IH r). lia.
  - simpl. lia.
Qed.

Lemma join_cons (sep : ascii) (seg seg' : cstring) (segs : list cstring) :
  join sep (seg :: seg' :: segs) = seg ++ sep :: join sep (seg' :: segs).
Proof. done. Qed.

Lemma spec_pairs_join (segs : list cstring) (n : nat) :
  Forall (λ seg, "," ∉ seg) segs →
  spec_pairs n (join "," segs) = take n (spec_pair <$> pair_texts segs).
Proof.
  intros Hsegs. revert n.
  induction Hsegs as [|seg segs Hseg Hsegs IH]; intros n.
  - cbn [join pair_texts fmap list_fmap]. by rewrite spec_pairs_nil, take_nil.
  - destruct segs as [|seg' segs].
    + destruct seg as [|x seg]; cbn [join pair_texts fmap list_fmap].
      * by rewrite spec_pairs_nil, take_nil.
      * destruct n as [|n]; [done|]. cbn [spec_pairs].
        rewrite split_at_absent by done. cbn [take]. by rewrite take_nil.
    + rewrite join_cons. destruct n as [|n]; [done|].
      change (pair_texts (seg :: seg' :: segs))
        with (seg :: pair_texts (seg' :: segs)).
      cbn [fmap list_fmap take]. rewrite <- IH.
      destruct seg as [|x seg].
      * cbn [app spec_pairs split_at]. by rewrite eqb_refl'.
      * change ((x :: seg) ++ "," :: join "," (seg' :: segs))
          with (x :: (seg ++ "," :: join "," (seg' :: segs))).
        cbn [spec_pairs].
        change (x :: (seg ++ "," :: join "," (seg' :: segs)))
          with ((x :: seg) ++ "," :: join "," (seg' :: segs)).
        by rewrite split_at_app.
Qed.

Lemma spec_pair_text (p : cstring * cstring) :
  "=" ∉ p.1 → spec_pair (pair_text p) = p.
Proof.
  intros Hp. unfold spec_pair, pair_text. rewrite split_at_app by done.
  by destruct p.
Qed.

Lemma pair_texts_nonempty (segs : list cstring) :
  Forall (λ seg, seg ≠ []) segs → pair_texts segs = segs.
Proof.
  induction 1 as [|seg segs Hseg Hsegs IH]; [done|].
  destruct segs as [|seg' segs].
  - by destruct seg.
  - change (pair_texts (seg :: seg' :: segs))
      with (seg :: pair_texts (seg' :: segs)). by rewrite IH.
Qed.

Lemma nul_free_join (sep : ascii) (segs : list cstring) :
  sep ≠ NUL → Forall nul_free segs → nul_free (join sep segs).
Proof.
  intros Hsep. unfold nul_free. induction 1 as [|seg segs Hseg Hsegs IH].
  - apply not_elem_of_nil.
  - destruct segs as [|seg' segs]; [done|].
    rewrite join_cons. apply not_elem_of_app. split; [done|].
    apply not_elem_of_cons. split; [congruence|done].
Qed.

Lemma scratch_text_fits (profile : cstring) :
  nul_free profile → length profile < ARGS_SIZE → scratch_text profile = profile.
Proof.
  intros Hnf Hlen. unfold scratch_text. rewrite c_str_id by done.
  apply take_ge. unfold ARGS_SIZE in *. lia.
Qed.

(** What the profile format makes of a text that fits the scratch buffer. *)
Lemma spec_parse_profile_text (d : cstring) (segs : list cstring) :
  nul_free d → ":" ∉ d → Forall (λ seg, nul_free seg ∧ "," ∉ seg) segs →
  length (profile_text d segs) < ARGS_SIZE →
  spec_parse (profile_text d segs) =
  (d, take MAX_ARGS (spec_pair <$> pair_texts segs)).
Proof.
  intros Hdnf Hd Hsegs Hlen. unfold spec_parse.
  rewrite scratch_text_fits; [|..|done].
  - unfold profile_text. rewrite split_at_app by done.
    rewrite spec_pairs_join; [done|].
    eapply Forall_impl; [exact Hsegs|]. by intros seg [_ ?].
  - unfold profile_text, nul_free. apply not_elem_of_app. split; [done|].
    apply not_elem_of_cons. split; [done|].
    apply nul_free_join; [done|].
    eapply Forall_impl; [exact Hsegs|]. by intros seg [? _].
Qed.

Lemma pairs_of_as_parsed (d : cstring) (pairs : list (cstring * cstring)) :
  pairs_of (as_parsed (d, pairs)) = pairs.
Proof.
  unfold pairs_of, as_parsed. cbn [argNames argValues fst snd].
  generalize (MAX_ARGS - length pairs) as k.
  induction pairs as [|[n v] pairs IH]; intros k.
  - by destruct k.
  - cbn [fmap list_fmap app arg_pairs fst snd]. by rewrite IH.
Qed.

(** ** Checking that a character is absent from a given text *)

Lemma absent_check (c : ascii) (s : cstring) :
  forallb (λ x, negb (Ascii.eqb x c)) s = true → c ∉ s.
Proof.
  induction s as [|x s IH]; cbn [forallb].
  - intros _. apply not_elem_of_nil.
  - intros [Hx Hs]%andb_prop. apply not_elem_of_cons. split; [|by apply IH].
    intros ->. by rewrite eqb_refl' in Hx.
Qed.

Ltac absent := apply absent_check; vm_compute; reflexivity.

(** ** Profiles without a colon *)

(** C3, as stated, fails: a profile of 1024 bytes without ':' does not come
    out whole as the driver name, only its first 1023 bytes do. *)
Lemma long_name_is_cut :
  (":" ∉ long_name) ∧ nul_free long_name ∧
  ¬ (∃ pp, parse long_name = Some pp ∧ driverName pp = long_name ∧
           pairs_of pp = []).
Proof.
  split; [absent|]. split; [absent|].
  intros (pp & Hpp & Hname & _). rewrite parse_refines in Hpp.
  injection Hpp as <-. apply (f_equal length) in Hname.
  vm_compute in Hname. discriminate.
Qed.

(** C3, amended: for every profile string without ':', parsing succeeds, the
    argument list is empty (both arrays hold 32 null pointers) and the
    driver name is the first 1023 bytes of the string, hence the whole
    string when it is shorter than the 1024 bytes of the scratch buffer. *)
Theorem no_colon_profile (profile : cstring) :
  nul_free profile → ":" ∉ profile →
  ∃ pp, parse profile = Some pp ∧
        driverName pp = take (ARGS_SIZE - 1) profile ∧
        (length profile < ARGS_SIZE → driverName pp = profile) ∧
        argNames pp = replicate MAX_ARGS None ∧
        argValues pp = replicate MAX_ARGS None ∧
        pairs_of pp = [].
Proof.
  intros Hnf Hcolon. exists (as_parsed (spec_parse profile)).
  split; [apply parse_refines|].
  unfold spec_parse, scratch_text. rewrite c_str_id by done.
  rewrite split_at_absent
    by (intros Hin; apply Hcolon; by apply (subseteq_take (ARGS_SIZE - 1))).
  split; [done|]. split; [|done].
  intros Hlen. cbn [as_parsed driverName fst]. apply take_ge.
  unfold ARGS_SIZE in *. lia.
Qed.

Lemma no_colon_profile_witness :
  nul_free (lit "jtag") ∧ (":" ∉ lit "jtag") ∧
  ∃ pp, parse (lit "jtag") = Some pp ∧
        driverName pp = take (ARGS_SIZE - 1) (lit "jtag") ∧
        (length (lit "jtag") < ARGS_SIZE → driverName pp = lit "jtag") ∧
        argNames pp = replicate MAX_ARGS None ∧
        argValues pp = replicate MAX_ARGS None ∧
        pairs_of pp = [].
Proof.
  split; [absent|]. split; [absent|].
  apply (no_colon_profile (lit "jtag")); absent.
Defined.

(** ** Profiles longer than the scratch buffer *)

Lemma take_c_str_take (n m : nat) (s : cstring) :
  n ≤ m → take n (c_str (take m s)) = take n (c_str s).
Proof.
  revert n m. induction s as [|x s IH]; intros n m Hnm.
  - by rewrite take_nil.
  - destruct m as [|m].
    + assert (n = 0) as -> by lia. done.
    + cbn [take c_str]. destruct (Ascii.eqb x NUL); [done|].
      destruct n as [|n]; [done|]. cbn [take]. f_equal. apply IH. lia.
Qed.

Lemma parse_profile_scratch (p q : cstring) :
  scratch_text p = scratch_text q → parse_profile p = parse_profile q.
Proof.
  intros Heq. unfold parse_profile. by rewrite !scratch_buffer, Heq.
Qed.

(** ** The capacity of 32 pairs *)

Lemma spec_parse_pairs (profile : cstring) :
  (spec_parse profile).2 = pairs_with_capacity MAX_ARGS profile.
Proof.
  unfold spec_parse, pairs_with_capacity.
  by destruct (split_at ":" (scratch_text profile)) as [d [rest|]].
Qed.

(** C6: for every profile string the parser returns, with at most 32 pairs,
    and these are the first 32 of the pairs that a parser of any larger
    capacity collects: the pairs after the 32nd are dropped and nothing
    fails. *)
Theorem at_most_32_pairs (profile : cstring) (extra : nat) :
  ∃ pp, parse profile = Some pp ∧
        length (pairs_of pp) ≤ MAX_ARGS ∧
        length (argNames pp) = MAX_ARGS ∧ length (argValues pp) = MAX_ARGS ∧
        pairs_of pp =
          take MAX_ARGS (pairs_with_capacity (MAX_ARGS + extra) profile).
Proof.
  exists (as_parsed (spec_parse profile)). split; [apply parse_refines|].
  destruct (spec_parse profile) as [d pairs] eqn:Hspec.
  assert (pairs = pairs_with_capacity MAX_ARGS profile) as Hpairs
    by (by rewrite <- spec_parse_pairs, Hspec).
  assert (length pairs ≤ MAX_ARGS) as Hlen.
  { rewrite Hpairs. unfold pairs_with_capacity.
    destruct (split_at ":" (scratch_text profile)) as [? [rest|]].
    - apply spec_pairs_length.
    - simpl. lia. }
  rewrite pairs_of_as_parsed. split; [done|].
  cbn [as_parsed argNames argValues snd].
  rewrite !length_app, !length_fmap, !length_replicate.
  split; [lia|]. split; [lia|].
  rewrite Hpairs. unfold pairs_with_capacity.
  destruct (split_at ":" (scratch_text profile)) as [? [rest|]]; [|done].
  apply spec_pairs_take. lia.
Qed.

(** ** Profiles given by their parts *)

Lemma parse_profile_text (d : cstring) (segs : list cstring) :
  nul_free d → ":" ∉ d → Forall (λ seg, nul_free seg ∧ "," ∉ seg) segs →
  length (profile_text d segs) < ARGS_SIZE →
  parse (profile_text d segs) =
  Some (as_parsed (d, take MAX_ARGS (spec_pair <$> pair_texts segs))).
Proof.
  intros. rewrite parse_refines. by rewrite spec_parse_profile_text.
Qed.

Lemma wf_pair_texts (pairs : list (cstring * cstring)) :
  Forall wf_pair pairs →
  Forall (λ seg, nul_free seg ∧ "," ∉ seg) (pair_text <$> pairs) ∧
  spec_pair <$> pair_texts (pair_text <$> pairs) = pairs.
Proof.
  intros Hwf. split.
  - apply Forall_fmap. eapply Forall_impl; [exact Hwf|].
    intros [n v] (Hn & _ & Hnc & Hv & Hvc). unfold pair_text, nul_free in *.
    cbn [fst snd] in *. split.
    + apply not_elem_of_app. split; [done|].
      apply not_elem_of_cons. split; [done|done].
    + apply not_elem_of_app. split; [done|].
      apply not_elem_of_cons. split; [done|done].
  - rewrite pair_texts_nonempty.
    + induction Hwf as [|p pairs Hp Hwf IH]; [done|].
      cbn [fmap list_fmap]. f_equal; [|exact IH].
      apply spec_pair_text. by destruct Hp as (_ & ? & _).
    + apply Forall_fmap. apply Forall_true. intros [n v]. cbn.
      unfold pair_text. by destruct n.
Qed.

(** ** Alias substitution *)

Lemma bind_ret {A B} (a : A) (k : A → M B) : bind (ret a) k = k a.
Proof. unfold bind, ret. by destruct (k a) as [[b t]|]. Qed.

Lemma bind_emit {B} (e : event) (k : unit → M B) :
  bind (emit e) k =
  match k tt with Some (b, t) => Some (b, e :: t) | None => None end.
Proof. done. Qed.

Lemma activations_app (t1 t2 : list event) :
  activations (t1 ++ t2) = activations t1 + activations t2.
Proof. unfold activations. by rewrite List.filter_app, length_app. Qed.

Lemma server_runs_app (t1 t2 : list event) :
  server_runs (t1 ++ t2) = server_runs t1 + server_runs t2.
Proof. unfold server_runs. by rewrite List.filter_app, length_app. Qed.

(** The loop always returns, and only logs. *)
Lemma alias_loop_total (table : list txvc_profile_alias) (profile : cstring) :
  ∃ tr, alias_loop table profile = Some (resolve_alias table profile, tr) ∧
        activations tr = 0 ∧ server_runs tr = 0.
Proof.
  unfold resolve_alias. revert profile.
  induction table as [|a table IH]; intros profile; cbn [alias_loop].
  - by exists [].
  - destruct (Z.eqb (strcmp profile (Alias.alias a)) 0).
    + destruct (IH (Alias.profile a)) as (tr & Hrun & Hact & Hsrv).
      rewrite !bind_emit, Hrun. eexists. split; [done|]. done.
    + apply IH.
Qed.

Lemma resolve_alias_cons (a : txvc_profile_alias)
    (table : list txvc_profile_alias) (profile : cstring) :
  resolve_alias (a :: table) profile =
  resolve_alias table
    (if Z.eqb (strcmp profile (Alias.alias a)) 0 then Alias.profile a
     else profile).
Proof.
  unfold resolve_alias at 1. cbn [alias_loop].
  destruct (Z.eqb (strcmp profile (Alias.alias a)) 0).
  - destruct (alias_loop_total table (Alias.profile a)) as (tr & Hrun & _).
    by rewrite !bind_emit, Hrun.
  - destruct (alias_loop_total table profile) as (tr & Hrun & _).
    by rewrite Hrun.
Qed.

Lemma resolve_alias_no_match (table : list txvc_profile_alias) (profile : cstring) :
  matches_no_alias table profile → resolve_alias table profile = profile.
Proof.
  induction 1 as [|a table Ha Htable IH]; [done|].
  rewrite resolve_alias_cons.
  by destruct (Z.eqb_spec (strcmp profile (Alias.alias a)) 0).
Qed.

(** On C strings a match of the loop is equality with the alias. *)
Lemma strcmp_zero_iff (a b : cstring) :
  nul_free a → nul_free b → strcmp a b = 0%Z ↔ a = b.
Proof.
  intros Ha Hb. split; [by apply strcmp_eq|].
  intros ->. apply strcmp_refl.
Qed.

(** The spec's scenario: the alias [unknownboard] resolves to its profile
    before parsing. *)
Lemma unknownboard_resolves :
  resolve_alias board_aliases (lit "unknownboard") = lit "jtag:freq=500000".
Proof. vm_compute. reflexivity. Qed.

(** C8: a profile string that is fully resolved, because no alias of the
    table matches it or because substitution maps it to itself, comes out
    of the alias substitution step unchanged, also when the step is applied
    once more to its result. *)
Theorem alias_fixed_point (table : list txvc_profile_alias) (profile : cstring) :
  matches_no_alias table profile ∨ resolve_alias table profile = profile →
  resolve_alias table profile = profile ∧
  resolve_alias table (resolve_alias table profile) = resolve_alias table profile ∧
  (matches_no_alias table profile → alias_loop table profile = Some (profile, [])).
Proof.
  intros H.
  assert (resolve_alias table profile = profile) as Hfix
    by (destruct H; [by apply resolve_alias_no_match|done]).
  split; [done|]. split; [by rewrite !Hfix|].
  clear. induction 1 as [|a table Ha Htable IH]; [done|].
  cbn [alias_loop].
  by destruct (Z.eqb_spec (strcmp profile (Alias.alias a)) 0).
Qed.

Lemma alias_fixed_point_witness :
  (matches_no_alias board_aliases (lit "jtag:freq=500000") ∨
   resolve_alias board_aliases (lit "jtag:freq=500000") = lit "jtag:freq=500000") ∧
  resolve_alias board_aliases (lit "jtag:freq=500000") = lit "jtag:freq=500000".
Proof.
  assert (matches_no_alias board_aliases (lit "jtag:freq=500000")) as Hno.
  { repeat constructor. intros H. vm_compute in H. discriminate. }
  split; [by left|].
  apply (alias_fixed_point board_aliases (lit "jtag:freq=500000")). by left.
Defined.

(** ** The alias loop, iteration by iteration *)

Lemma alias_run_suffix (table : list txvc_profile_alias) :
  ∀ (pre : list txvc_profile_alias) (profile : cstring) (k : nat),
  ∃ c, c ≤ length table ∧
    ∀ fuel,
      (length table ≤ fuel →
       alias_run (pre ++ table) fuel
         {| ac_index := length pre; ac_profile := profile;
            ac_substitutions := k |} =
       Some {| ac_index := length (pre ++ table);
               ac_profile := resolve_alias table profile;
               ac_substitutions := k + c |}) ∧
      (fuel < length table →
       alias_run (pre ++ table) fuel
         {| ac_index := length pre; ac_profile := profile;
            ac_substitutions := k |} = None).
Proof.
  induction table as [|a table IH]; intros pre profile k.
  - exists 0. split; [done|]. intros fuel. split; [|simpl; lia].
    intros _. rewrite app_nil_r, Nat.add_0_r.
    assert (alias_step pre {| ac_index := length pre; ac_profile := profile;
                              ac_substitutions := k |} = None) as Hstep.
    { unfold alias_step. cbn [ac_index]. by rewrite lookup_ge_None_2. }
    destruct fuel; cbn [alias_run]; by rewrite Hstep.
  - set (hit := Z.eqb (strcmp profile (Alias.alias a)) 0).
    destruct (IH (pre ++ [a]) (if hit then Alias.profile a else profile)
                (if hit then S k else k)) as (c & Hc & Hrun).
    exists ((if hit then 1 else 0) + c). split; [destruct hit; simpl; lia|].
    assert (alias_step (pre ++ a :: table)
              {| ac_index := length pre; ac_profile := profile;
                 ac_substitutions := k |} =
            Some {| ac_index := length (pre ++ [a]);
                    ac_profile := if hit then Alias.profile a else profile;
                    ac_substitutions := if hit then S k else k |}) as Hstep.
    { unfold alias_step. cbn [ac_index ac_profile ac_substitutions].
      rewrite list_lookup_middle by done. fold hit.
      rewrite length_app, Nat.add_1_r. by destruct hit. }
    intros fuel. rewrite resolve_alias_cons. fold hit.
    destruct fuel as [|fuel]; cbn [alias_run]; rewrite Hstep.
    + split; [simpl; lia|done].
    + destruct (Hrun fuel) as [Hsome Hnone].
      rewrite <- !app_assoc in Hsome, Hnone. cbn [app] in Hsome, Hnone.
      split; intros Hfuel.
      * rewrite Hsome by (simpl in Hfuel; lia). do 2 f_equal.
        destruct hit; lia.
      * apply Hnone. simpl in Hfuel. lia.
Qed.

(** C2, as stated, fails: with an alias that names itself, and with two
    aliases that name each other, the loop is left after one, respectively
    two, iterations. *)
Lemma alias_cycle_terminates :
  ¬ loops_forever self_alias (lit "a") ∧
  ¬ loops_forever mutual_aliases (lit "a") ∧
  alias_loop self_alias (lit "a") ≠ None ∧
  alias_loop mutual_aliases (lit "a") ≠ None.
Proof.
  split; [|split; [|split]].
  - intros H. specialize (H 1). vm_compute in H. discriminate.
  - intros H. specialize (H 2). vm_compute in H. discriminate.
  - vm_compute. discriminate.
  - vm_compute. discriminate.
Qed.

(** C2, amended: for every alias table, cyclic or not, the alias
    substitution step terminates: the loop makes one pass over the table,
    it is left after exactly as many iterations as the table has entries,
    and it assigns [profile] at most that many times. There is no cycle
    detection, and a cycle among the aliases does not keep the loop
    running. *)
Theorem alias_loop_terminates (table : list txvc_profile_alias) (profile : cstring) :
  ∃ c, c ≤ length table ∧
    alias_run table (length table) (alias_start profile) =
      Some {| ac_index := length table;
              ac_profile := resolve_alias table profile;
              ac_substitutions := c |} ∧
    (∀ fuel, fuel < length table →
             alias_run table fuel (alias_start profile) = None) ∧
    (∃ tr, alias_loop table profile = Some (resolve_alias table profile, tr)) ∧
    ¬ loops_forever table profile.
Proof.
  destruct (alias_run_suffix table [] profile 0) as (c & Hc & Hrun).
  cbn [app length Nat.add] in Hrun. exists c. split; [done|].
  assert (alias_run table (length table) (alias_start profile) =
          Some {| ac_index := length table;
                  ac_profile := resolve_alias table profile;
                  ac_substitutions := c |}) as Hexit
    by (by apply Hrun).
  split; [done|]. split; [intros fuel; apply Hrun|].
  split.
  - destruct (alias_loop_total table profile) as (tr & Htr & _). by exists tr.
  - intros Hloop. by rewrite Hloop in Hexit.
Qed.

Lemma alias_loop_terminates_witness :
  alias_run mutual_aliases 1 (alias_start (lit "a")) = None ∧
  ∃ c, c ≤ 2 ∧
       alias_run mutual_aliases 2 (alias_start (lit "a")) =
         Some {| ac_index := 2; ac_profile := lit "a"; ac_substitutions := c |}.
Proof.
  destruct (alias_loop_terminates mutual_aliases (lit "a"))
    as (c & Hc & Hexit & Hrunning & _).
  split; [apply Hrunning; vm_compute; lia|].
  exists c. split; [exact Hc|]. exact Hexit.
Defined.

(** ** [activate_driver] and [main] on a profile that parses *)

Lemma parse_inv (profile : cstring) (pp : parsed_profile) :
  parse profile = Some pp →
  ∃ st, parse_profile profile = Some st ∧
        read_cstr (ps_args st) 0 = Some (driverName pp) ∧
        view (ps_args st) (ps_names st) = Some (argNames pp) ∧
        view (ps_args st) (ps_values st) = Some (argValues pp).
Proof.
  unfold parse. intros H.
  destruct (parse_profile profile) as [st|]; [|done]. exists st.
  cbn [mbind option_bind] in H.
  destruct (read_cstr (ps_args st) 0) as [name|]; [|done].
  destruct (view (ps_args st) (ps_names st)) as [names|]; [|done].
  destruct (view (ps_args st) (ps_values st)) as [values|]; [|done].
  cbn [mbind option_bind] in H. by injection H as <-.
Qed.

Lemma activate_driver_run (aliases : list txvc_profile_alias)
    (drivers : list txvc_driver) (profile : cstring) :
  ∃ tr pp,
    alias_loop aliases profile = Some (resolve_alias aliases profile, tr) ∧
    activations tr = 0 ∧ server_runs tr = 0 ∧
    parse (resolve_alias aliases profile) = Some pp ∧
    activate_driver aliases drivers profile =
      Some ((activation_outcome drivers pp).1,
            tr ++ (activation_outcome drivers pp).2).
Proof.
  destruct (alias_loop_total aliases profile) as (tr & Halias & Hact & Hsrv).
  pose proof (parse_refines (resolve_alias aliases profile)) as Hparse.
  exists tr, (as_parsed (spec_parse (resolve_alias aliases profile))).
  do 4 (split; [done|]).
  destruct (parse_inv _ _ Hparse) as (st & Hst & Hname & Hnames & Hvalues).
  unfold activate_driver, activation_outcome.
  rewrite Halias. cbn [bind]. rewrite Hst. cbn [lift]. rewrite bind_ret.
  rewrite Hname. cbn [lift]. rewrite bind_ret.
  destruct (txvc_enumerate_drivers drivers find_by_name _) as [d|].
  - rewrite Hnames, Hvalues. cbn [lift]. rewrite !bind_ret, bind_emit.
    by destruct (Driver.activate d _ _).
  - by rewrite bind_emit.
Qed.

Lemma main_run (aliases : list txvc_profile_alias) (drivers : list txvc_driver)
    (progname profile : cstring) (opts : cli_options) :
  Cli.help opts = false → Cli.profile opts = Some profile →
  ∃ tr pp,
    activations tr = 0 ∧ server_runs tr = 0 ∧
    parse (resolve_alias aliases profile) = Some pp ∧
    main aliases drivers progname true opts =
      Some (0%Z,
            ESetLogMinLevel (Cli.verbose opts) :: EListenForUserInterrupt ::
            (tr ++ (activation_outcome drivers pp).2) ++
            serving (default DEFAULT_SERVER_ADDR (Cli.serverAddr opts))
                    (activation_outcome drivers pp).1).
Proof.
  intros Hhelp Hprofile.
  destruct (activate_driver_run aliases drivers profile)
    as (tr & pp & _ & Hact & Hsrv & Hparse & Hrun).
  exists tr, pp. do 3 (split; [done|]).
  unfold main. rewrite Hhelp, Hprofile. cbn [negb].
  rewrite !bind_emit. rewrite Hrun. cbn [bind].
  destruct (activation_outcome drivers pp).1 as [d|]; cbn [serving].
  - rewrite !bind_emit. destruct (Driver.deactivate d tt); done.
  - cbn [ret]. by rewrite app_nil_r.
Qed.

Lemma activation_outcome_once (drivers : list txvc_driver) (pp : parsed_profile) :
  activations (activation_outcome drivers pp).2 ≤ 1 ∧
  (txvc_enumerate_drivers drivers find_by_name (driverName pp) = None →
   activations (activation_outcome drivers pp).2 = 0 ∧
   (activation_outcome drivers pp).1 = None).
Proof.
  unfold activation_outcome.
  destruct (txvc_enumerate_drivers drivers find_by_name _) as [d|].
  - split; [|done]. destruct (Driver.activate d _ _); cbn; lia.
  - split; [cbn; lia|done].
Qed.

Lemma serving_no_activation (addr : cstring) (d : option txvc_driver) :
  activations (serving addr d) = 0.
Proof.
  destruct d as [d|]; [|done]. cbn [serving].
  by destruct (Driver.deactivate d tt).
Qed.

(** ** Runs in which no driver has the parsed name *)

(** Whatever the tables, the exit status of a run that got as far as
    [activate_driver] is 0, and without a driver of the parsed name the
    run reports that and serves nothing. *)
Lemma main_driver_not_found (aliases : list txvc_profile_alias)
    (drivers : list txvc_driver) (progname profile : cstring)
    (opts : cli_options) (pp : parsed_profile) :
  Cli.help opts = false → Cli.profile opts = Some profile →
  parse (resolve_alias aliases profile) = Some pp →
  txvc_enumerate_drivers drivers find_by_name (driverName pp) = None →
  ∃ tr, main aliases drivers progname true opts = Some (0%Z, tr) ∧
        last tr = Some (ELog LOG_ERROR MsgCanNotFindDriver [driverName pp]) ∧
        server_runs tr = 0 ∧ activations tr = 0.
Proof.
  intros Hhelp Hprofile Hpp Hnone.
  destruct (main_run aliases drivers progname profile opts Hhelp Hprofile)
    as (tr & pp' & Hact & Hsrv & Hpp' & Hmain).
  assert (pp' = pp) as -> by congruence.
  unfold activation_outcome in Hmain. rewrite Hnone in Hmain.
  cbn [fst snd serving] in Hmain. rewrite app_nil_r in Hmain.
  eexists. split; [exact Hmain|].
  split; [by rewrite !last_cons, last_snoc|].
  change (ESetLogMinLevel (Cli.verbose opts) :: EListenForUserInterrupt ::
          tr ++ [ELog LOG_ERROR MsgCanNotFindDriver [driverName pp]])
    with ([ESetLogMinLevel (Cli.verbose opts); EListenForUserInterrupt] ++
          tr ++ [ELog LOG_ERROR MsgCanNotFindDriver [driverName pp]]).
  rewrite !server_runs_app, !activations_app, Hact, Hsrv. done.
Qed.

(** C1 at the spec's scenario: the profile [ghost] matches no alias and no
    driver. The run reports "Can not find driver", never calls the server
    loop, and leaves [main] through its final [return 0]: the exit status
    is 0, the status of success, not [EXIT_FAILURE]. *)
Theorem ghost_exits_with_status_zero :
  main [] [jtag] (lit "txvc") true (opts_with_profile "ghost") =
    Some (0%Z, [ESetLogMinLevel false; EListenForUserInterrupt;
                ELog LOG_ERROR MsgCanNotFindDriver [lit "ghost"]]) ∧
  EXIT_SUCCESS = 0%Z ∧ EXIT_FAILURE ≠ 0%Z ∧
  main [] [jtag] (lit "txvc") false (opts_with_profile "ghost") =
    Some (EXIT_FAILURE, [EPrintUsage (lit "txvc") false]) ∧
  main [] [jtag] (lit "txvc") true
       {| Cli.serverAddr := None; Cli.profile := None;
          Cli.verbose := false; Cli.help := false |} =
    Some (EXIT_FAILURE, [EStderr "Profile is missing"]).
Proof. repeat split; (vm_compute; reflexivity) || done. Qed.

(** C9: every run returns, its trace holds at most one call of a driver's
    [activate], and none at all when no driver of the registry has the
    parsed driver name. *)
Theorem activation_at_most_once (aliases : list txvc_profile_alias)
    (drivers : list txvc_driver) (progname : cstring) (parsed : bool)
    (opts : cli_options) :
  ∃ status tr,
    main aliases drivers progname parsed opts = Some (status, tr) ∧
    activations tr ≤ 1 ∧
    (∀ profile pp,
       Cli.profile opts = Some profile →
       parse (resolve_alias aliases profile) = Some pp →
       txvc_enumerate_drivers drivers find_by_name (driverName pp) = None →
       activations tr = 0).
Proof.
  destruct parsed;
    [|exists EXIT_FAILURE, [EPrintUsage progname false];
      split; [done|]; split; [cbn; lia|done]].
  destruct (Cli.help opts) eqn:Hhelp;
    [exists EXIT_SUCCESS, [EPrintUsage progname true]; unfold main;
     rewrite Hhelp; split; [done|]; split; [cbn; lia|done]|].
  destruct (Cli.profile opts) as [profile|] eqn:Hprofile;
    [|exists EXIT_FAILURE, [EStderr "Profile is missing"]; unfold main;
      rewrite Hhelp, Hprofile; split; [done|]; split; [cbn; lia|done]].
  destruct (main_run aliases drivers progname profile opts Hhelp Hprofile)
    as (tr & pp & Hact & Hsrv & Hpp & Hmain).
  eexists _, _. split; [exact Hmain|].
  pose proof (activation_outcome_once drivers pp) as [Hle Hnone].
  match goal with
  | |- context [ESetLogMinLevel ?v :: EListenForUserInterrupt :: ?t] =>
      change (ESetLogMinLevel v :: EListenForUserInterrupt :: t)
        with ([ESetLogMinLevel v; EListenForUserInterrupt] ++ t)
  end.
  rewrite !activations_app, Hact, serving_no_activation.
  change (activations [ESetLogMinLevel (Cli.verbose opts);
                       EListenForUserInterrupt]) with 0.
  split; [lia|].
  intros profile' pp' [= <-] Hpp' Hlookup.
  assert (pp' = pp) as -> by congruence.
  destruct (Hnone Hlookup) as [-> _]. done.
Qed.

Lemma activation_at_most_once_witness :
  ∃ status tr,
    main [] [jtag] (lit "txvc") true (opts_with_profile "ghost") =
      Some (status, tr) ∧
    activations tr = 0.
Proof.
  destruct (activation_at_most_once [] [jtag] (lit "txvc") true
              (opts_with_profile "ghost")) as (status & tr & Hmain & _ & Hnone).
  exists status, tr. split; [exact Hmain|].
  apply (Hnone (lit "ghost") (as_parsed (spec_parse (lit "ghost")))).
  - reflexivity.
  - apply parse_refines.
  - vm_compute. reflexivity.
Defined.

(** ** Well-formed profiles *)

(** C4, as stated, fails: of 33 well-formed pairs only the first 32 are
    handed on, and a pair that reaches beyond the scratch buffer is cut. *)
Lemma oversized_profile_loses_pairs :
  nul_free (lit "d") ∧ (":" ∉ lit "d") ∧
  Forall wf_pair many_pairs ∧ wf_pair long_pair ∧
  ¬ (∃ pp, parse (profile_text (lit "d") (pair_text <$> many_pairs)) = Some pp ∧
           driverName pp = lit "d" ∧ pairs_of pp = many_pairs) ∧
  ¬ (∃ pp, parse (profile_text (lit "d") (pair_text <$> [long_pair])) = Some pp ∧
           driverName pp = lit "d" ∧ pairs_of pp = [long_pair]).
Proof.
  assert (wf_pair (lit "a", lit "1")) as Hwf by (repeat split; absent).
  assert (wf_pair long_pair) as Hlong by (repeat split; absent).
  split; [absent|]. split; [absent|].
  split; [by apply Forall_replicate|]. split; [done|]. split.
  - intros (pp & Hpp & _ & Hpairs). rewrite parse_refines in Hpp.
    injection Hpp as <-. apply (f_equal length) in Hpairs.
    vm_compute in Hpairs. discriminate.
  - intros (pp & Hpp & _ & Hpairs). rewrite parse_refines in Hpp.
    injection Hpp as <-.
    apply (f_equal (λ l, length <$> (fst <$> l))) in Hpairs.
    vm_compute in Hpairs. discriminate.
Qed.

(** C4, amended: for every well-formed profile string
    [<driverName>:<n0>=<v0>,<n1>=<v1>,...] with at most 32 pairs and fewer
    than 1024 bytes, parsing yields the driver name before the first ':'
    and the pairs in their textual order, and the driver of that name is
    activated once, with exactly those pairs in that order. *)
Theorem well_formed_profile (d : cstring) (pairs : list (cstring * cstring)) :
  nul_free d → ":" ∉ d → Forall wf_pair pairs →
  length pairs ≤ MAX_ARGS →
  length (profile_text d (pair_text <$> pairs)) < ARGS_SIZE →
  ∃ pp, parse (profile_text d (pair_text <$> pairs)) = Some pp ∧
        driverName pp = d ∧ pairs_of pp = pairs ∧
        argNames pp = (Some <$> pairs.*1) ++ replicate (MAX_ARGS - length pairs) None ∧
        argValues pp = (Some <$> pairs.*2) ++ replicate (MAX_ARGS - length pairs) None ∧
        ∀ aliases drivers profile drv,
          resolve_alias aliases profile = profile_text d (pair_text <$> pairs) →
          txvc_enumerate_drivers drivers find_by_name d = Some drv →
          ∃ result tr,
            activate_driver aliases drivers profile = Some (result, tr) ∧
            List.filter is_activation tr =
              [EActivate (Driver.name drv) (argNames pp) (argValues pp)].
Proof.
  intros Hdnf Hd Hwf Hcount Hlen.
  destruct (wf_pair_texts pairs Hwf) as [Hsegs Hspec].
  pose proof (parse_profile_text d _ Hdnf Hd Hsegs Hlen) as Hparse.
  rewrite Hspec, take_ge in Hparse by done.
  exists (as_parsed (d, pairs)). split; [done|]. split; [done|].
  split; [apply pairs_of_as_parsed|]. split; [done|]. split; [done|].
  intros aliases drivers profile drv Hresolve Hlookup.
  destruct (activate_driver_run aliases drivers profile)
    as (tr & pp & _ & Hact & _ & Hpp & Hrun).
  rewrite Hresolve, Hparse in Hpp. injection Hpp as <-.
  eexists _, _. split; [exact Hrun|].
  rewrite List.filter_app.
  apply nil_length_inv in Hact. rewrite Hact. cbn [app].
  unfold activation_outcome. cbn [driverName as_parsed fst]. rewrite Hlookup.
  by destruct (Driver.activate drv _ _).
Qed.

Lemma well_formed_profile_witness :
  ∃ result tr,
    activate_driver [] [jtag] (lit "jtag:freq=1000000,vref=3.3") =
      Some (result, tr) ∧
    List.filter is_activation tr =
      [EActivate (lit "jtag")
         ([Some (lit "freq"); Some (lit "vref")] ++ replicate 30 None)
         ([Some (lit "1000000"); Some (lit "3.3")] ++ replicate 30 None)].
Proof.
  assert (Forall wf_pair jtag_pairs) as Hwf
    by (repeat constructor; absent).
  destruct (well_formed_profile (lit "jtag") jtag_pairs)
    as (pp & _ & _ & _ & Hnames & Hvalues & Hrun);
    [absent | absent | exact Hwf | vm_compute; lia | vm_compute; lia |].
  destruct (Hrun [] [jtag] (lit "jtag:freq=1000000,vref=3.3") jtag)
    as (result & tr & Hact & Htr); [reflexivity | reflexivity |].
  exists result, tr. split; [exact Hact|].
  rewrite Htr, Hnames, Hvalues. reflexivity.
Defined.

(** ** Pairs without '=' *)

(** C5, as stated, fails: a pair without '=' that comes after 32 others is
    not handed on at all, and one that reaches beyond the scratch buffer
    loses its end. *)
Lemma unreachable_pair_is_lost :
  ("=" ∉ lit "flag") ∧ ("=" ∉ long_name) ∧
  ¬ (∃ pp, parse (profile_text (lit "d") flag_last) = Some pp ∧
           (lit "flag", []) ∈ pairs_of pp) ∧
  ¬ (∃ pp, parse (profile_text (lit "d") [long_name]) = Some pp ∧
           (long_name, []) ∈ pairs_of pp).
Proof.
  split; [absent|]. split; [absent|]. split.
  - intros (pp & Hpp & Hin).
    assert (pairs_of pp = replicate 32 (lit "a", lit "1")) as Hpairs.
    { rewrite parse_refines in Hpp. apply (inj Some) in Hpp as <-.
      vm_compute. reflexivity. }
    rewrite Hpairs in Hin. apply elem_of_replicate in Hin as [Hin _].
    vm_compute in Hin. discriminate.
  - intros (pp & Hpp & Hin).
    assert (pairs_of pp = [(replicate 1021 "x", [])]) as Hpairs.
    { rewrite parse_refines in Hpp. apply (inj Some) in Hpp as <-.
      vm_compute. reflexivity. }
    rewrite Hpairs in Hin. apply list_elem_of_singleton in Hin.
    apply (f_equal (λ p, length p.1)) in Hin. vm_compute in Hin. discriminate.
Qed.

(** C5, amended: in a profile string of fewer than 1024 bytes, every pair
    text without '=' that is among the first 32 pair texts comes out as the
    argument name, whole, with the empty string as its value; nothing is
    reported as an error. *)
Theorem pair_without_equals (d : cstring) (segs : list cstring) (i : nat)
    (seg : cstring) :
  nul_free d → ":" ∉ d → Forall (λ s, nul_free s ∧ "," ∉ s) segs →
  length (profile_text d segs) < ARGS_SIZE →
  i < MAX_ARGS → pair_texts segs !! i = Some seg → "=" ∉ seg →
  ∃ pp, parse (profile_text d segs) = Some pp ∧
        argNames pp !! i = Some (Some seg) ∧
        argValues pp !! i = Some (Some []) ∧
        pairs_of pp !! i = Some (seg, []).
Proof.
  intros Hdnf Hd Hsegs Hlen Hi Hseg Heq.
  set (pairs := take MAX_ARGS (spec_pair <$> pair_texts segs)).
  assert (pairs !! i = Some (seg, [])) as Hpair.
  { unfold pairs. rewrite lookup_take_lt by done.
    rewrite list_lookup_fmap, Hseg. cbn [fmap option_fmap option_map].
    unfold spec_pair. by rewrite split_at_absent. }
  exists (as_parsed (d, pairs)).
  split; [by apply parse_profile_text|].
  pose proof (lookup_lt_Some _ _ _ Hpair) as Hlt.
  cbn [as_parsed argNames argValues fst snd].
  split; [|split].
  - rewrite lookup_app_l by (by rewrite !length_fmap).
    by rewrite !list_lookup_fmap, Hpair.
  - rewrite lookup_app_l by (by rewrite !length_fmap).
    by rewrite !list_lookup_fmap, Hpair.
  - by rewrite pairs_of_as_parsed.
Qed.

Lemma pair_without_equals_witness :
  ∃ pp, parse (lit "d:flag") = Some pp ∧
        argNames pp !! 0 = Some (Some (lit "flag")) ∧
        argValues pp !! 0 = Some (Some []) ∧
        pairs_of pp !! 0 = Some (lit "flag", []).
Proof.
  apply (pair_without_equals (lit "d") [lit "flag"] 0 (lit "flag"));
    [absent | absent | repeat constructor; absent | vm_compute; lia
    | vm_compute; lia | reflexivity | absent].
Defined.

(** ** A separator with nothing after it *)

Lemma c_str_app (s t : cstring) :
  c_str (s ++ t) = c_str s ∨ (c_str s = s ∧ c_str (s ++ t) = s ++ c_str t).
Proof.
  induction s as [|x s IH]; [by right|].
  cbn [app c_str]. destruct (Ascii.eqb x NUL); [by left|].
  destruct IH as [->|[-> ->]]; [by left|by right].
Qed.

Lemma scratch_text_snoc (s : cstring) (x : ascii) :
  scratch_text (s ++ [x]) = scratch_text s ∨
  (scratch_text (s ++ [x]) = s ++ [x] ∧ scratch_text s = s).
Proof.
  unfold scratch_text. destruct (c_str_app s [x]) as [->|[Hs ->]]; [by left|].
  rewrite Hs. cbn [c_str]. destruct (Ascii.eqb x NUL).
  - left. by rewrite app_nil_r.
  - destruct (decide (length s < ARGS_SIZE - 1)) as [Hlt|Hge].
    + right. unfold ARGS_SIZE in *.
      split; apply take_ge; rewrite ?length_app; cbn [length]; lia.
    + left. apply take_app_le. lia.
Qed.

Lemma spec_pairs_trailing_comma (n : nat) (body : cstring) (c : ascii) :
  c ≠ "," → spec_pairs n (body ++ [c; ","]) = spec_pairs n (body ++ [c]).
Proof.
  intros Hc. revert body. induction n as [|n IH]; intros body; [done|].
  assert (∀ rest : cstring, rest ≠ [] →
            spec_pairs (S n) rest =
            let '(seg, r) := split_at "," rest in
            spec_pair seg :: match r with
                             | Some rest' => spec_pairs n rest'
                             | None => []
                             end) as Hunfold
    by (by intros [|x rest]).
  rewrite !Hunfold by (by destruct body).
  destruct (split_at "," body) as [seg [r|]] eqn:Hseg.
  - apply split_at_Some in Hseg as [-> Hseg].
    rewrite <- !app_assoc. cbn [app]. rewrite !split_at_app by done.
    by rewrite IH.
  - apply split_at_None in Hseg as [-> Hseg].
    assert ("," ∉ body ++ [c]) as Hbody.
    { apply not_elem_of_app. split; [done|].
      apply not_elem_of_cons. split; [congruence|apply not_elem_of_nil]. }
    change (body ++ [c; ","]) with (body ++ [c] ++ [","]).
    rewrite app_assoc. rewrite split_at_app by done.
    rewrite split_at_absent by done. by rewrite spec_pairs_nil.
Qed.

(** C10, as stated, fails: a ',' that directly follows another separator
    does add a pair, the one with the empty name and the empty value that
    the empty text between the two separators makes. *)
Lemma empty_pair_before_trailing_comma :
  (∃ pp, parse (lit "d:") = Some pp ∧ pairs_of pp = []) ∧
  (∃ pp, parse (lit "d:,") = Some pp ∧ pairs_of pp = [([], [])]) ∧
  (∃ pp, parse (lit "d:a=1,") = Some pp ∧ pairs_of pp = [(lit "a", lit "1")]) ∧
  (∃ pp, parse (lit "d:a=1,,") = Some pp ∧
         pairs_of pp = [(lit "a", lit "1"); ([], [])]) ∧
  parse (lit "d:,") ≠ parse (lit "d:") ∧
  parse (lit "d:a=1,,") ≠ parse (lit "d:a=1,").
Proof.
  repeat split;
    try (eexists; split; [apply parse_refines|vm_compute; reflexivity]);
    rewrite !parse_refines; intros H; vm_compute in H; discriminate.
Qed.

(** C10, amended: a separator with nothing after it, when it directly
    follows the driver name or a pair text that does not end in ',', adds
    no pair. For every driver name [d], the profile [d:] parses as [d]
    does, with no pairs, and a profile whose pair text ends in a character
    other than ',' parses the same with a ',' appended: the loop stops at
    the empty rest and stores no pair for it. *)
Theorem trailing_separator (d : cstring) :
  ":" ∉ d →
  parse (d ++ [":"]) = parse d ∧
  (∃ pp, parse (d ++ [":"]) = Some pp ∧ pairs_of pp = []) ∧
  ∀ body c, c ≠ "," →
            parse (d ++ ":" :: body ++ [c; ","]) = parse (d ++ ":" :: body ++ [c]).
Proof.
  intros Hd.
  assert (spec_parse (d ++ [":"]) = spec_parse d ∧ (spec_parse d).2 = []) as [H1 H2].
  { unfold spec_parse.
    assert (":" ∉ scratch_text d) as Hd'.
    { unfold scratch_text. intros Hin. apply subseteq_take in Hin.
      destruct (c_str_app d []) as [Hc|[Hc _]].
      - rewrite app_nil_r in Hc. clear Hc.
        induction d as [|x d IH]; [by apply elem_of_nil in Hin|].
        apply not_elem_of_cons in Hd as [Hx Hd]. cbn [c_str] in Hin.
        destruct (Ascii.eqb x NUL); [by apply elem_of_nil in Hin|].
        apply elem_of_cons in Hin as [Hin|Hin]; [done|by apply IH].
      - by rewrite Hc in Hin. }
    destruct (scratch_text_snoc d ":") as [->|[-> Hfit]].
    - by rewrite split_at_absent.
    - rewrite Hfit in *. rewrite split_at_app, split_at_absent by done. done. }
  split; [by rewrite !parse_refines, H1|]. split.
  - exists (as_parsed (spec_parse (d ++ [":"]))). split; [apply parse_refines|].
    rewrite H1. destruct (spec_parse d) as [d' pairs]. cbn [snd] in H2.
    rewrite H2. apply pairs_of_as_parsed.
  - intros body c Hc. rewrite !parse_refines. f_equal. f_equal.
    unfold spec_parse.
    replace (d ++ ":" :: body ++ [c; ","])
      with ((d ++ ":" :: body ++ [c]) ++ [","])
      by (by rewrite <- !app_assoc; cbn [app]; rewrite <- !app_assoc).
    destruct (scratch_text_snoc (d ++ ":" :: body ++ [c]) ",") as [->|[-> ->]];
      [done|].
    rewrite <- app_assoc. cbn [app]. rewrite !split_at_app by done.
    f_equal. rewrite <- app_assoc. cbn [app].
    by apply spec_pairs_trailing_comma.
Qed.

Lemma trailing_separator_witness :
  parse (lit "d:") = parse (lit "d") ∧
  parse (lit "d:a=1,") = parse (lit "d:a=1").
Proof.
  destruct (trailing_separator (lit "d")) as (Hcolon & _ & Hcomma); [absent|].
  split; [exact Hcolon|].
  apply (Hcomma (lit "a=") "1"). discriminate.
Defined.

(** ** The parser only writes terminators over separators *)

Lemma store_length (b b' : buffer) (p : nat) (c : ascii) :
  store b p c = Some b' → length b' = length b.
Proof.
  unfold store. destruct (b !! p); [|done].
  intros [= <-]. apply length_insert.
Qed.

Lemma store_lookup (b b' : buffer) (p : nat) (c : ascii) :
  store b p c = Some b' → b' !! p = Some c.
Proof.
  unfold store. destruct (b !! p) eqn:Hp; [|done].
  intros [= <-]. apply list_lookup_insert_eq. by eapply lookup_lt_Some.
Qed.

Lemma arr_set_length (arr arr' : list (option ptr)) (i : nat) (v : option ptr) :
  arr_set arr i v = Some arr' → length arr' = length arr.
Proof.
  unfold arr_set. destruct (arr !! i); [|done].
  intros [= <-]. apply length_insert.
Qed.

Lemma strchr_from_found (l : list ascii) (p k : nat) (c : ascii) :
  strchr_from l p c = Some (Some k) → ∃ j, k = p + j ∧ l !! j = Some c.
Proof.
  revert p. induction l as [|x l IH]; intros p; cbn [strchr_from]; [done|].
  destruct (Ascii.eqb_spec x c) as [->|Hx].
  - intros [= <-]. exists 0. split; [lia|done].
  - destruct (Ascii.eqb x NUL); [done|].
    intros (j & -> & Hj)%IH. exists (S j). split; [lia|done].
Qed.

Lemma strchr_found (b : buffer) (p k : nat) (c : ascii) :
  strchr b p c = Some (Some k) → b !! k = Some c.
Proof.
  unfold strchr. intros (j & -> & Hj)%strchr_from_found.
  by rewrite lookup_drop in Hj.
Qed.

Lemma cut_from_refl (b : buffer) : cut_from b b.
Proof. split; [done|]. intros k c Hk. by left. Qed.

Lemma cut_from_store (b0 b b' : buffer) (k : nat) (c : ascii) :
  cut_from b0 b → b !! k = Some c → separator c →
  store b k NUL = Some b' → cut_from b0 b'.
Proof.
  intros [Hlen Hcut] Hk Hsep Hstore.
  pose proof (store_length _ _ _ _ Hstore) as Hlen'.
  unfold store in Hstore. rewrite Hk in Hstore. injection Hstore as <-.
  split; [congruence|]. intros j c0 Hj.
  destruct (decide (k = j)) as [<-|Hne].
  - right. rewrite list_lookup_insert_eq by (by eapply lookup_lt_Some).
    split; [|done].
    destruct (Hcut k c0 Hj) as [Hsame|[Hsep0 _]]; [|done].
    by assert (c0 = c) as -> by congruence.
  - rewrite list_lookup_insert_ne by done. by apply Hcut.
Qed.

Lemma pair_body_cut (b0 : buffer) (i cur : nat) (st st' : parse_state) :
  cut_from b0 (ps_args st) → pair_body i st cur = Some st' →
  cut_from b0 (ps_args st') ∧
  length (ps_names st') = length (ps_names st) ∧
  length (ps_values st') = length (ps_values st).
Proof.
  intros Hcut. unfold pair_body.
  destruct (strchr (ps_args st) cur ",") as [comma|] eqn:Hcomma; [|done].
  cbn [mbind option_bind].
  assert (∀ r, match comma with
               | Some k => a ← store (ps_args st) k NUL; Some (a, Some (S k))
               | None => Some (ps_args st, None)
               end = Some r → cut_from b0 r.1) as Hfirst.
  { intros [args1 cur1]. destruct comma as [k|]; [|by intros [= <- <-]].
    destruct (store (ps_args st) k NUL) as [a|] eqn:Hstore; [|done].
    intros [= <- <-]. cbn [fst].
    eapply cut_from_store; [exact Hcut|by eapply strchr_found| |exact Hstore].
    right. by left. }
  destruct (match comma with
            | Some k => a ← store (ps_args st) k NUL; Some (a, Some (S k))
            | None => Some (ps_args st, None)
            end) as [[args1 cur1]|]; [|done].
  pose proof (Hfirst _ eq_refl) as Hcut1. cbn [fst] in Hcut1. clear Hfirst.
  cbn [mbind option_bind].
  destruct (arr_set (ps_names st) i (Some (InArgs cur))) as [names1|] eqn:Hnames;
    [|done].
  cbn [mbind option_bind].
  destruct (strchr args1 cur "=") as [[k|]|] eqn:Heq; [| |done];
    cbn [mbind option_bind].
  - destruct (store args1 k NUL) as [args2|] eqn:Hstore; [|done].
    cbn [mbind option_bind].
    destruct (arr_set (ps_values st) i _) as [values1|] eqn:Hvalues; [|done].
    intros [= <-]. cbn [ps_args ps_names ps_values].
    split; [|split; by eapply arr_set_length].
    eapply cut_from_store; [exact Hcut1|by eapply strchr_found| |exact Hstore].
    right. by right.
  - destruct (arr_set (ps_values st) i _) as [values1|] eqn:Hvalues; [|done].
    intros [= <-]. cbn [ps_args ps_names ps_values].
    split; [done|split; by eapply arr_set_length].
Qed.

Lemma pair_loop_cut (b0 : buffer) (n : nat) :
  ∀ (i : nat) (st st' : parse_state),
    cut_from b0 (ps_args st) → pair_loop n i st = Some st' →
    cut_from b0 (ps_args st') ∧
    length (ps_names st') = length (ps_names st) ∧
    length (ps_values st') = length (ps_values st).
Proof.
  induction n as [|n IH]; intros i st st' Hcut; cbn [pair_loop].
  - by intros [= <-].
  - destruct (ps_cur st) as [cur|]; [|by intros [= <-]].
    destruct (load (ps_args st) cur) as [ch|]; [|done].
    cbn [mbind option_bind].
    destruct (Ascii.eqb ch NUL); [by intros [= <-]|].
    destruct (pair_body i st cur) as [st1|] eqn:Hbody; [|done].
    cbn [mbind option_bind]. intros Hloop.
    destruct (pair_body_cut b0 i cur st st1 Hcut Hbody) as (Hcut1 & Hn1 & Hv1).
    destruct (IH (S i) st1 st' Hcut1 Hloop) as (Hcut' & Hn' & Hv').
    split; [done|]. split; congruence.
Qed.

Lemma strncpy_length (s : cstring) (n : nat) : length (strncpy s n) = n.
Proof.
  revert s. induction n as [|n IH]; intros s; [done|].
  destruct s as [|c s]; cbn [strncpy].
  - by rewrite length_replicate.
  - destruct (Ascii.eqb c NUL); [by rewrite length_replicate|].
    cbn [length]. by rewrite IH.
Qed.

Lemma parse_profile_memory (profile : cstring) :
  ∃ b0 st,
    store (strncpy profile ARGS_SIZE) (ARGS_SIZE - 1) NUL = Some b0 ∧
    parse_profile profile = Some st ∧
    cut_from b0 (ps_args st) ∧
    length (ps_args st) = ARGS_SIZE ∧
    ps_args st !! (ARGS_SIZE - 1) = Some NUL ∧
    length (ps_names st) = MAX_ARGS ∧ length (ps_values st) = MAX_ARGS.
Proof.
  destruct (parse_inv _ _ (parse_refines profile)) as (st & Hst & _).
  destruct (store (strncpy profile ARGS_SIZE) (ARGS_SIZE - 1) NUL)
    as [b0|] eqn:Hb0; [|by rewrite scratch_buffer in Hb0].
  exists b0, st. split; [done|]. split; [done|].
  assert (length b0 = ARGS_SIZE) as Hlen0
    by (by rewrite (store_length _ _ _ _ Hb0), strncpy_length).
  assert (b0 !! (ARGS_SIZE - 1) = Some NUL) as Hlast0
    by (by eapply store_lookup).
  assert (cut_from b0 (ps_args st) ∧ length (ps_names st) = MAX_ARGS ∧
          length (ps_values st) = MAX_ARGS) as (Hcut & Hn & Hv).
  { unfold parse_profile in Hst. rewrite Hb0 in Hst.
    cbn [mbind option_bind] in Hst.
    destruct (strchr b0 0 ":") as [[k|]|] eqn:Hcolon; [| |done];
      cbn [mbind option_bind] in Hst.
    - destruct (store b0 k NUL) as [b1|] eqn:Hb1; [|done].
      cbn [mbind option_bind ps_names ps_values] in Hst.
      assert (cut_from b0 b1) as Hcut1.
      { eapply cut_from_store;
          [apply cut_from_refl|by eapply strchr_found| |exact Hb1]. by left. }
      destruct (pair_loop_cut b0 _ _ _ _ (Hcut1 : cut_from b0 (ps_args {| ps_args := b1; ps_cur := Some (S k); ps_names := replicate MAX_ARGS None; ps_values := replicate MAX_ARGS None |})) Hst)
        as (Hcut & Hn & Hv).
      cbn [ps_names ps_values] in Hn, Hv.
      rewrite length_replicate in Hn, Hv. done.
    - injection Hst as <-. cbn [ps_args ps_names ps_values].
      split; [apply cut_from_refl|done]. }
  split; [done|]. split; [destruct Hcut; congruence|]. split; [|done].
  destruct Hcut as [_ Hcut].
  by destruct (Hcut _ _ Hlast0) as [?|[_ ?]].
Qed.

(** ** Profiles longer than the scratch buffer: what is parsed *)

Lemma spec_parse_read_format (profile : cstring) :
  spec_parse profile = read_format (scratch_text profile).
Proof. done. Qed.

(** C7: a profile string that does not fit the 1024 bytes of the scratch
    buffer is cut to its first 1023 bytes (the last byte of the buffer is
    the terminator) before it is parsed, and parsing does not fail. The
    buffer that the parser ends with is that prefix and a NUL, with
    separators cut; what the parser hands on is the profile format's
    reading of that prefix, the same as for the prefix on its own (and as
    for the first 1024 bytes). *)
Theorem long_profile_truncated (profile : cstring) :
  nul_free profile → ARGS_SIZE ≤ length profile →
  (∃ st, parse_profile profile = Some st ∧
         cut_from (take (ARGS_SIZE - 1) profile ++ [NUL]) (ps_args st)) ∧
  parse profile =
    Some (as_parsed (read_format (take (ARGS_SIZE - 1) profile))) ∧
  store (strncpy profile ARGS_SIZE) (ARGS_SIZE - 1) NUL =
    Some (take (ARGS_SIZE - 1) profile ++ [NUL]) ∧
  parse_profile profile = parse_profile (take (ARGS_SIZE - 1) profile) ∧
  parse profile = parse (take (ARGS_SIZE - 1) profile) ∧
  parse profile = parse (take ARGS_SIZE profile) ∧
  is_Some (parse profile).
Proof.
  intros Hnf Hlen.
  assert (scratch_text profile = take (ARGS_SIZE - 1) profile) as Htext
    by (unfold scratch_text; by rewrite c_str_id).
  assert (∀ m, ARGS_SIZE - 1 ≤ m →
               scratch_text profile = scratch_text (take m profile)) as Hcut.
  { intros m Hm. unfold scratch_text. by rewrite take_c_str_take. }
  assert (store (strncpy profile ARGS_SIZE) (ARGS_SIZE - 1) NUL =
          Some (take (ARGS_SIZE - 1) profile ++ [NUL])) as Hbuf.
  { rewrite scratch_buffer, Htext.
    rewrite length_take_le by (unfold ARGS_SIZE in *; lia).
    by rewrite Nat.sub_diag. }
  split; [|split; [|split; [|split; [|split; [|split]]]]].
  - destruct (parse_profile_memory profile) as (b0 & st & Hb0 & Hst & Hmem & _).
    exists st. split; [done|]. congruence.
  - by rewrite parse_refines, spec_parse_read_format, Htext.
  - done.
  - by apply parse_profile_scratch, Hcut.
  - unfold parse. by rewrite (parse_profile_scratch _ _ (Hcut _ (le_n _))).
  - assert (ARGS_SIZE - 1 ≤ ARGS_SIZE) as Hle by (unfold ARGS_SIZE; lia).
    unfold parse. by rewrite (parse_profile_scratch _ _ (Hcut _ Hle)).
  - rewrite parse_refines. by eexists.
Qed.

Lemma long_profile_truncated_witness :
  nul_free long_profile ∧ ARGS_SIZE ≤ length long_profile ∧
  parse long_profile =
    Some (as_parsed (read_format (take (ARGS_SIZE - 1) long_profile))) ∧
  driverName <$> parse long_profile = Some (lit "jtag") ∧
  pairs_of <$> parse long_profile = Some [(lit "freq", replicate 1013 "9")].
Proof.
  assert (nul_free long_profile) as Hnf by absent.
  assert (ARGS_SIZE ≤ length long_profile) as Hlen by (vm_compute; lia).
  destruct (long_profile_truncated long_profile Hnf Hlen) as (_ & Hparse & _).
  split; [exact Hnf|]. split; [exact Hlen|]. split; [exact Hparse|].
  rewrite Hparse. split; vm_compute; reflexivity.
Defined.

(** ** Memory safety of the parser *)

(** X1: for every profile string, cutting it up touches no byte outside
    the 1024 bytes of [args] and no entry outside the 32 of the two arrays:
    the parser returns, the buffer still has 1024 bytes and ends in NUL,
    both arrays still have 32 entries, and the driver name and every
    stored pointer read a terminated string inside the buffer. *)
Theorem parse_profile_safe (profile : cstring) :
  ∃ st, parse_profile profile = Some st ∧
        length (ps_args st) = ARGS_SIZE ∧
        ps_args st !! (ARGS_SIZE - 1) = Some NUL ∧
        length (ps_names st) = MAX_ARGS ∧ length (ps_values st) = MAX_ARGS ∧
        is_Some (read_cstr (ps_args st) 0) ∧
        is_Some (view (ps_args st) (ps_names st)) ∧
        is_Some (view (ps_args st) (ps_values st)).
Proof.
  destruct (parse_profile_memory profile)
    as (b0 & st & _ & Hst & _ & Hlen & Hlast & Hn & Hv).
  exists st. do 5 (split; [done|]).
  destruct (parse_inv _ _ (parse_refines profile))
    as (st' & Hst' & Hname & Hnames & Hvalues).
  assert (st' = st) as -> by congruence.
  rewrite Hname, Hnames, Hvalues. by repeat split.
Qed.


(** ** What the parser hands on is well formed *)

Lemma split_at_keeps_absent (c x : ascii) (s : cstring) :
  x ∉ s →
  (x ∉ (split_at c s).1) ∧ ∀ r, (split_at c s).2 = Some r → x ∉ r.
Proof.
  intros Hx. destruct (split_at c s) as [a [r|]] eqn:Hsplit; cbn [fst snd].
  - apply split_at_Some in Hsplit as [-> _].
    apply not_elem_of_app in Hx as [Ha [_ Hr]%not_elem_of_cons].
    split; [done|]. by intros ? [= <-].
  - apply split_at_None in Hsplit as [-> _]. by split.
Qed.

Lemma split_at_fst_absent (c : ascii) (s : cstring) : c ∉ (split_at c s).1.
Proof.
  destruct (split_at c s) as [a [r|]] eqn:Hsplit; cbn [fst].
  - by apply split_at_Some in Hsplit as [_ ?].
  - by apply split_at_None in Hsplit as [-> ?].
Qed.

Lemma spec_pair_wf (seg : cstring) :
  nul_free seg → "," ∉ seg → wf_pair (spec_pair seg).
Proof.
  intros Hnul Hcomma. unfold wf_pair, spec_pair, nul_free in *.
  pose proof (split_at_fst_absent "=" seg) as Heq.
  destruct (split_at_keeps_absent "=" NUL seg Hnul) as [Hn1 Hn2].
  destruct (split_at_keeps_absent "=" "," seg Hcomma) as [Hc1 Hc2].
  destruct (split_at "=" seg) as [nm [vl|]]; cbn [fst snd default] in *.
  - repeat split; auto.
  - repeat split; auto; apply not_elem_of_nil.
Qed.

Lemma spec_pairs_wf (n : nat) (rest : cstring) :
  nul_free rest → Forall wf_pair (spec_pairs n rest).
Proof.
  revert rest. induction n as [|n IH]; intros rest Hnul; [constructor|].
  destruct rest as [|x rest]; [constructor|]. cbn [spec_pairs].
  pose proof (split_at_fst_absent "," (x :: rest)) as Hcomma.
  destruct (split_at_keeps_absent "," NUL (x :: rest) Hnul) as [Hn1 Hn2].
  destruct (split_at "," (x :: rest)) as [seg [r|]]; cbn [fst snd] in *.
  - constructor; [by apply spec_pair_wf|]. apply IH. by apply Hn2.
  - constructor; [by apply spec_pair_wf|constructor].
Qed.

Lemma spec_parse_wf (profile : cstring) :
  nul_free (spec_parse profile).1 ∧ (":" ∉ (spec_parse profile).1) ∧
  length (spec_parse profile).1 < ARGS_SIZE ∧
  Forall wf_pair (spec_parse profile).2 ∧
  length (spec_parse profile).2 ≤ MAX_ARGS.
Proof.
  unfold spec_parse.
  pose proof (scratch_text_nul_free profile) as Hnul.
  pose proof (split_at_fst_absent ":" (scratch_text profile)) as Hcolon.
  destruct (split_at_keeps_absent ":" NUL _ Hnul) as [Hn1 Hn2].
  assert (length (split_at ":" (scratch_text profile)).1 < ARGS_SIZE) as Hlen.
  { assert (length (scratch_text profile) < ARGS_SIZE) as Hlt.
    { unfold scratch_text, ARGS_SIZE. rewrite length_take. lia. }
    destruct (split_at ":" (scratch_text profile)) as [d [r|]] eqn:Hsplit;
      cbn [fst].
    - apply split_at_Some in Hsplit as [Heq _]. rewrite Heq, length_app in Hlt.
      lia.
    - by apply split_at_None in Hsplit as [-> _]. }
  destruct (split_at ":" (scratch_text profile)) as [d [r|]]; cbn [fst snd] in *.
  - do 3 (split; [done|]). split; [by apply spec_pairs_wf, Hn2|].
    apply spec_pairs_length.
  - do 3 (split; [done|]). split; [constructor|]. cbn. lia.
Qed.

(** X3: whatever the profile string, what is handed on is well formed: the
    driver name has no ':' and fewer than 1024 bytes, no name has '=' or
    ',', no value has ',', and none of them has a NUL. *)
Theorem parse_output_well_formed (profile : cstring) :
  ∃ pp, parse profile = Some pp ∧
        nul_free (driverName pp) ∧ (":" ∉ driverName pp) ∧
        length (driverName pp) < ARGS_SIZE ∧
        Forall wf_pair (pairs_of pp).
Proof.
  exists (as_parsed (spec_parse profile)). split; [apply parse_refines|].
  destruct (spec_parse_wf profile) as (Hnul & Hcolon & Hlen & Hwf & _).
  destruct (spec_parse profile) as [d pairs]. rewrite pairs_of_as_parsed.
  done.
Qed.

(** X4: writing a parsed profile out again as
    [<driverName>:<n0>=<v0>,<n1>=<v1>,...] and parsing that text gives the
    same driver name and the same two arrays, provided the text fits the
    scratch buffer. *)
Theorem parse_render_parse (profile : cstring) (pp : parsed_profile) :
  parse profile = Some pp →
  length (profile_text (driverName pp) (pair_text <$> pairs_of pp)) < ARGS_SIZE →
  parse (profile_text (driverName pp) (pair_text <$> pairs_of pp)) = Some pp.
Proof.
  rewrite parse_refines. intros [= <-].
  destruct (spec_parse_wf profile) as (Hnul & Hcolon & _ & Hwf & Hcount).
  destruct (spec_parse profile) as [d pairs]. rewrite pairs_of_as_parsed.
  cbn [as_parsed driverName fst snd] in *. intros Hlen.
  destruct (wf_pair_texts pairs Hwf) as [Hsegs Hspec].
  rewrite (parse_profile_text d _ Hnul Hcolon Hsegs Hlen).
  by rewrite Hspec, take_ge.
Qed.

Lemma parse_render_parse_witness :
  ∃ pp, parse (lit "jtag:freq=1000000,flag,") = Some pp ∧
        profile_text (driverName pp) (pair_text <$> pairs_of pp) =
          lit "jtag:freq=1000000,flag=" ∧
        parse (profile_text (driverName pp) (pair_text <$> pairs_of pp)) =
          Some pp.
Proof.
  exists (as_parsed (spec_parse (lit "jtag:freq=1000000,flag,"))).
  split; [apply parse_refines|]. split; [vm_compute; reflexivity|].
  apply (parse_render_parse (lit "jtag:freq=1000000,flag,")
           (as_parsed (spec_parse (lit "jtag:freq=1000000,flag,")))
           (parse_refines _)).
  vm_compute. lia.
Defined.

(** X5: the two arrays run in parallel: the pairs fill the same leading
    entries of both, every later entry of both is null, and [argNames]
    holds a null entry exactly when fewer than 32 pairs were collected
    (with 32 pairs neither array is null terminated). *)
Theorem arrays_parallel (profile : cstring) :
  ∃ pp, parse profile = Some pp ∧
        length (pairs_of pp) ≤ MAX_ARGS ∧
        (∀ i, i < length (pairs_of pp) →
              ∃ n v, argNames pp !! i = Some (Some n) ∧
                     argValues pp !! i = Some (Some v) ∧
                     pairs_of pp !! i = Some (n, v)) ∧
        (∀ i, length (pairs_of pp) ≤ i → i < MAX_ARGS →
              argNames pp !! i = Some None ∧ argValues pp !! i = Some None) ∧
        (None ∈ argNames pp ↔ length (pairs_of pp) < MAX_ARGS).
Proof.
  exists (as_parsed (spec_parse profile)). split; [apply parse_refines|].
  destruct (spec_parse_wf profile) as (_ & _ & _ & _ & Hcount).
  destruct (spec_parse profile) as [d pairs]. rewrite pairs_of_as_parsed.
  cbn [as_parsed argNames argValues fst snd] in *.
  split; [done|]. split; [|split].
  - intros i Hi. destruct (lookup_lt_is_Some_2 pairs i Hi) as [[n v] Hp].
    exists n, v. rewrite !lookup_app_l by (by rewrite !length_fmap).
    by rewrite !list_lookup_fmap, Hp.
  - intros i Hi Hlt.
    rewrite !lookup_app_r by (by rewrite !length_fmap).
    rewrite !length_fmap. split; apply lookup_replicate_2; lia.
  - split.
    + intros [Hin|Hin]%elem_of_app.
      * apply list_elem_of_fmap in Hin as (? & ? & _). done.
      * apply elem_of_replicate in Hin as [_ Hne]. lia.
    + intros Hlt. apply elem_of_app. right. apply elem_of_replicate.
      split; [done|lia].
Qed.

(** ** How alias tables compose *)

Lemma bind_assoc {A B C} (m : M A) (f : A → M B) (g : B → M C) :
  bind (bind m f) g = bind m (λ x, bind (f x) g).
Proof.
  destruct m as [[a t1]|]; [|done]. cbn [bind].
  destruct (f a) as [[b t2]|]; [|done]. cbn [bind].
  destruct (g b) as [[c t3]|]; [|done]. by rewrite app_assoc.
Qed.

Lemma alias_loop_concat (t1 t2 : list txvc_profile_alias) (profile : cstring) :
  alias_loop (t1 ++ t2) profile = bind (alias_loop t1 profile) (alias_loop t2).
Proof.
  revert profile. induction t1 as [|a t1 IH]; intros profile.
  - cbn [app alias_loop]. by rewrite bind_ret.
  - cbn [app alias_loop].
    destruct (Z.eqb (strcmp profile (Alias.alias a)) 0); [|apply IH].
    by rewrite !bind_assoc, IH.
Qed.

(** X6: running the alias loop over a table [t1 ++ t2] is running it over
    [t1] and then over [t2] on the profile that the first run is left
    with, the log of the first followed by the log of the second. *)
Theorem alias_loop_app (t1 t2 : list txvc_profile_alias) (profile : cstring) :
  alias_loop (t1 ++ t2) profile = bind (alias_loop t1 profile) (alias_loop t2) ∧
  resolve_alias (t1 ++ t2) profile = resolve_alias t2 (resolve_alias t1 profile).
Proof.
  split; [apply alias_loop_concat|].
  revert profile. induction t1 as [|a t1 IH]; intros profile; [done|].
  cbn [app]. by rewrite !resolve_alias_cons, IH.
Qed.

Lemma alias_loop_no_match (table : list txvc_profile_alias) (profile : cstring) :
  matches_no_alias table profile → alias_loop table profile = Some (profile, []).
Proof.
  induction 1 as [|a table Ha Htable IH]; [done|]. cbn [alias_loop].
  by destruct (Z.eqb_spec (strcmp profile (Alias.alias a)) 0).
Qed.

(** X7: when exactly one entry is hit, that is when no entry before [a]
    matches the profile, [a] does, and no entry after [a] matches the
    profile of [a], the loop is left with the profile of [a] and has logged
    the two INFO lines for [a] and nothing else. *)
Theorem alias_single_match (t1 t2 : list txvc_profile_alias)
    (a : txvc_profile_alias) (profile : cstring) :
  matches_no_alias t1 profile →
  strcmp profile (Alias.alias a) = 0%Z →
  matches_no_alias t2 (Alias.profile a) →
  alias_loop (t1 ++ a :: t2) profile = Some (Alias.profile a, alias_log a) ∧
  resolve_alias (t1 ++ a :: t2) profile = Alias.profile a.
Proof.
  intros H1 Ha H2.
  assert (alias_loop (t1 ++ a :: t2) profile =
          Some (Alias.profile a, alias_log a)) as Hrun.
  { rewrite (alias_loop_concat t1 (a :: t2) profile).
    rewrite (alias_loop_no_match t1 profile H1). cbn [bind alias_loop].
    rewrite Ha. cbn [Z.eqb]. rewrite !bind_emit.
    by rewrite (alias_loop_no_match t2 _ H2). }
  split; [done|]. unfold resolve_alias. by rewrite Hrun.
Qed.

Lemma alias_single_match_witness :
  alias_loop board_aliases (lit "unknownboard") =
    Some (lit "jtag:freq=500000",
          alias_log (mk_alias "unknownboard" "jtag:freq=500000")) ∧
  resolve_alias board_aliases (lit "unknownboard") = lit "jtag:freq=500000".
Proof.
  apply (alias_single_match [] [] (mk_alias "unknownboard" "jtag:freq=500000")
           (lit "unknownboard")).
  - constructor.
  - vm_compute. reflexivity.
  - constructor.
Defined.

(** X8: the profile that the alias loop is left with is the one it was
    given or the profile of an entry of the table. *)
Theorem resolve_alias_target (table : list txvc_profile_alias) (profile : cstring) :
  resolve_alias table profile = profile ∨
  ∃ a, a ∈ table ∧ resolve_alias table profile = Alias.profile a.
Proof.
  revert profile. induction table as [|a table IH]; intros profile; [by left|].
  rewrite resolve_alias_cons.
  destruct (Z.eqb (strcmp profile (Alias.alias a)) 0).
  - right. destruct (IH (Alias.profile a)) as [->|(a' & Hin & ->)].
    + exists a. split; [apply list_elem_of_here|done].
    + exists a'. split; [by apply list_elem_of_further|done].
  - destruct (IH profile) as [->|(a' & Hin & ->)]; [by left|].
    right. exists a'. split; [by apply list_elem_of_further|done].
Qed.

(** ** The driver that the lookup returns *)

(** X9: with [find_by_name] as the callback, the enumeration returns the
    first driver of the registry whose name compares equal to the name
    looked for, and none exactly when no driver's name does. *)
Theorem lookup_first_match (drivers : list txvc_driver) (name : cstring) :
  (∀ d, txvc_enumerate_drivers drivers find_by_name name = Some d ↔
        ∃ l1 l2, drivers = l1 ++ d :: l2 ∧
                 strcmp name (Driver.name d) = 0%Z ∧
                 Forall (λ d', strcmp name (Driver.name d') ≠ 0%Z) l1) ∧
  (txvc_enumerate_drivers drivers find_by_name name = None ↔
   Forall (λ d', strcmp name (Driver.name d') ≠ 0%Z) drivers).
Proof.
  induction drivers as [|d0 drivers [IHsome IHnone]].
  - split; [|by split].
    intros d. split; [done|]. intros (l1 & l2 & Heq & _).
    by destruct l1.
  - cbn [txvc_enumerate_drivers]. unfold find_by_name at 1 3.
    destruct (Z.eqb_spec (strcmp name (Driver.name d0)) 0) as [Hz|Hnz];
      cbn [negb].
    + split.
      * intros d. split.
        -- intros [= <-]. by exists [], drivers.
        -- intros (l1 & l2 & Heq & Hd & Hl1). destruct l1 as [|d1 l1].
           ++ by injection Heq as <- _.
           ++ injection Heq as <- _. by apply Forall_cons in Hl1 as [? _].
      * split; [done|]. by intros [? _]%Forall_cons.
    + split.
      * intros d. rewrite IHsome. split.
        -- intros (l1 & l2 & -> & Hd & Hl1). exists (d0 :: l1), l2.
           split; [done|]. split; [done|]. by constructor.
        -- intros (l1 & l2 & Heq & Hd & Hl1). destruct l1 as [|d1 l1].
           ++ injection Heq as -> _. done.
           ++ injection Heq as _ ->. apply Forall_cons in Hl1 as [_ Hl1].
              by exists l1, l2.
      * rewrite IHnone. split; [by constructor|by intros [_ ?]%Forall_cons].
Qed.

(** ** What a run of [activate_driver] and of [main] consists of *)

Lemma errors_app (t1 t2 : list event) : errors (t1 ++ t2) = errors t1 + errors t2.
Proof. unfold errors. by rewrite List.filter_app, length_app. Qed.

Lemma deactivations_app (t1 t2 : list event) :
  deactivations (t1 ++ t2) = deactivations t1 + deactivations t2.
Proof. unfold deactivations. by rewrite List.filter_app, length_app. Qed.

(** The alias loop logs at level INFO only. *)
Lemma alias_loop_quiet (table : list txvc_profile_alias) (profile : cstring) :
  ∃ tr, alias_loop table profile = Some (resolve_alias table profile, tr) ∧
        activations tr = 0 ∧ server_runs tr = 0 ∧
        errors tr = 0 ∧ deactivations tr = 0.
Proof.
  unfold resolve_alias. revert profile.
  induction table as [|a table IH]; intros profile; cbn [alias_loop].
  - by exists [].
  - destruct (Z.eqb (strcmp profile (Alias.alias a)) 0).
    + destruct (IH (Alias.profile a)) as (tr & Hrun & Hact & Hsrv & Herr & Hde).
      rewrite !bind_emit, Hrun. eexists. split; [done|]. done.
    + apply IH.
Qed.

Lemma lookup_elem_of (drivers : list txvc_driver) (name : cstring) (d : txvc_driver) :
  txvc_enumerate_drivers drivers find_by_name name = Some d →
  d ∈ drivers ∧ strcmp name (Driver.name d) = 0%Z.
Proof.
  induction drivers as [|d0 drivers IH]; [done|].
  cbn [txvc_enumerate_drivers]. unfold find_by_name at 1.
  destruct (Z.eqb_spec (strcmp name (Driver.name d0)) 0) as [Hz|Hnz];
    cbn [negb].
  - intros [= <-]. split; [apply list_elem_of_here|done].
  - intros [Hin Hd]%IH. split; [by apply list_elem_of_further|done].
Qed.

Lemma activate_driver_quiet_run (aliases : list txvc_profile_alias)
    (drivers : list txvc_driver) (profile : cstring) :
  ∃ tr pp,
    activations tr = 0 ∧ server_runs tr = 0 ∧ errors tr = 0 ∧
    deactivations tr = 0 ∧
    parse (resolve_alias aliases profile) = Some pp ∧
    activate_driver aliases drivers profile =
      Some ((activation_outcome drivers pp).1,
            tr ++ (activation_outcome drivers pp).2).
Proof.
  destruct (alias_loop_quiet aliases profile)
    as (tr & Halias & Hact & Hsrv & Herr & Hde).
  destruct (activate_driver_run aliases drivers profile)
    as (tr' & pp & Halias' & _ & _ & Hpp & Hrun).
  assert (tr' = tr) as -> by congruence.
  by exists tr, pp.
Qed.

(** X10: [activate_driver] always returns. A driver it returns is the
    registry's first match for the parsed name, its [activate] was called
    once and answered true, and no error was logged. When it returns null,
    exactly one error was logged, as the last line: "Failed to activate"
    after the one call of [activate] that answered false, or "Can not find
    driver" with no call at all. It never runs the server or deactivates. *)
Theorem activate_driver_result (aliases : list txvc_profile_alias)
    (drivers : list txvc_driver) (profile : cstring) :
  ∃ pp result tr,
    parse (resolve_alias aliases profile) = Some pp ∧
    activate_driver aliases drivers profile = Some (result, tr) ∧
    server_runs tr = 0 ∧ deactivations tr = 0 ∧
    match result with
    | Some d =>
        d ∈ drivers ∧
        txvc_enumerate_drivers drivers find_by_name (driverName pp) = Some d ∧
        strcmp (driverName pp) (Driver.name d) = 0%Z ∧
        Driver.activate d (argNames pp) (argValues pp) = true ∧
        activations tr = 1 ∧ errors tr = 0
    | None =>
        errors tr = 1 ∧
        match txvc_enumerate_drivers drivers find_by_name (driverName pp) with
        | Some d =>
            Driver.activate d (argNames pp) (argValues pp) = false ∧
            activations tr = 1 ∧
            last tr = Some (ELog LOG_ERROR MsgFailedToActivate [driverName pp])
        | None =>
            activations tr = 0 ∧
            last tr = Some (ELog LOG_ERROR MsgCanNotFindDriver [driverName pp])
        end
    end.
Proof.
  destruct (activate_driver_quiet_run aliases drivers profile)
    as (tr & pp & Hact & Hsrv & Herr & Hde & Hpp & Hrun).
  exists pp. eexists _, _. split; [done|]. split; [exact Hrun|].
  rewrite !server_runs_app, !deactivations_app, !activations_app, !errors_app.
  rewrite Hact, Hsrv, Herr, Hde. unfold activation_outcome.
  destruct (txvc_enumerate_drivers drivers find_by_name (driverName pp))
    as [d|] eqn:Hlookup.
  - destruct (lookup_elem_of _ _ _ Hlookup) as [Hin Hname].
    destruct (Driver.activate d (argNames pp) (argValues pp)) eqn:Hok;
      cbn [fst snd].
    + by repeat split.
    + repeat split; try done.
      change [EActivate (Driver.name d) (argNames pp) (argValues pp);
              ELog LOG_ERROR MsgFailedToActivate [driverName pp]]
        with ([EActivate (Driver.name d) (argNames pp) (argValues pp)] ++
              [ELog LOG_ERROR MsgFailedToActivate [driverName pp]]).
      by rewrite app_assoc, last_snoc.
  - cbn [fst snd]. repeat split; try done.
    by rewrite last_snoc.
Qed.

Lemma main_status_run (aliases : list txvc_profile_alias)
    (drivers : list txvc_driver) (progname : cstring) (parsed : bool)
    (opts : cli_options) :
  ∃ tr, main aliases drivers progname parsed opts =
          Some (exit_status parsed opts, tr) ∧
        (exit_status parsed opts = EXIT_FAILURE ∨ Cli.help opts = true ∨
         parsed = false →
         activations tr = 0 ∧ server_runs tr = 0 ∧ length tr = 1).
Proof.
  unfold exit_status. destruct parsed; cbn [negb];
    [|eexists; split; [done|]; by intros _].
  destruct (Cli.help opts) eqn:Hhelp;
    [eexists; unfold main; rewrite Hhelp; split; [done|]; by intros _|].
  destruct (Cli.profile opts) as [profile|] eqn:Hprofile;
    [|eexists; unfold main; rewrite Hhelp, Hprofile; split; [done|];
      by intros _].
  destruct (main_run aliases drivers progname profile opts Hhelp Hprofile)
    as (tr & pp & _ & _ & _ & Hmain).
  eexists. split; [exact Hmain|]. by intros [?|[?|?]].
Qed.


(** X12: a run that gets a profile first sets the log level and installs
    the interrupt handler, then runs [activate_driver]; only when that
    returns a driver does it run the server, at the address given or else
    at 127.0.0.1:2542, and then deactivate that same driver, with a warning
    as the only consequence of a failed deactivation. The exit status is 0
    in all these cases. *)
Theorem main_lifecycle (aliases : list txvc_profile_alias)
    (drivers : list txvc_driver) (progname profile : cstring)
    (opts : cli_options) :
  Cli.help opts = false → Cli.profile opts = Some profile →
  ∃ result tr0,
    activate_driver aliases drivers profile = Some (result, tr0) ∧
    main aliases drivers progname true opts =
      Some (0%Z,
            [ESetLogMinLevel (Cli.verbose opts); EListenForUserInterrupt] ++
            tr0 ++
            match result with
            | Some d =>
                [ERunServer (default DEFAULT_SERVER_ADDR (Cli.serverAddr opts))
                            (Driver.name d);
                 EDeactivate (Driver.name d)] ++
                (if Driver.deactivate d tt then []
                 else [ELog LOG_WARN MsgFailedToDeactivate [Driver.name d]])
            | None => []
            end).
Proof.
  intros Hhelp Hprofile.
  destruct (activate_driver_run aliases drivers profile)
    as (tr & pp & _ & _ & _ & _ & Hrun).
  eexists _, _. split; [exact Hrun|].
  unfold main. rewrite Hhelp, Hprofile. cbn [negb].
  rewrite !bind_emit, Hrun. cbn [bind].
  destruct (activation_outcome drivers pp).1 as [d|].
  - rewrite !bind_emit. by destruct (Driver.deactivate d tt).
  - cbn [ret]. by rewrite !app_nil_r.
Qed.

Lemma main_lifecycle_witness :
  main board_aliases [jtag] (lit "txvc") true (opts_with_profile "unknownboard") =
    Some (0%Z,
          [ESetLogMinLevel false; EListenForUserInterrupt] ++
          (alias_log (mk_alias "unknownboard" "jtag:freq=500000") ++
           [EActivate (lit "jtag")
              (Some (lit "freq") :: replicate 31 None)
              (Some (lit "500000") :: replicate 31 None)]) ++
          [ERunServer DEFAULT_SERVER_ADDR (lit "jtag");
           EDeactivate (lit "jtag")]).
Proof.
  destruct (main_lifecycle board_aliases [jtag] (lit "txvc")
              (lit "unknownboard") (opts_with_profile "unknownboard")
              eq_refl eq_refl) as (result & tr0 & Hact & Hmain).
  assert (activate_driver board_aliases [jtag] (lit "unknownboard") =
          Some (Some jtag,
                alias_log (mk_alias "unknownboard" "jtag:freq=500000") ++
                [EActivate (lit "jtag")
                   (Some (lit "freq") :: replicate 31 None)
                   (Some (lit "500000") :: replicate 31 None)])) as Hrun
    by (vm_compute; reflexivity).
  rewrite Hrun in Hact. injection Hact as <- <-. exact Hmain.
Defined.



(** ** The command line *)

Lemma optstring_value : optstring = lit "a:p:vh".
Proof. reflexivity. Qed.

Lemma getopt_step (opt : Z) (optarg : option cstring)
    (results : list (Z * option cstring)) (out : cli_options) :
  getopt_loop ((opt, optarg) :: results) out =
  if Z.eqb opt (char_code "a")
  then getopt_loop results (apply_option FServerAddr optarg out)
  else if Z.eqb opt (char_code "p")
  then getopt_loop results (apply_option FProfile optarg out)
  else if Z.eqb opt (char_code "v")
  then getopt_loop results (apply_option FVerbose optarg out)
  else if Z.eqb opt (char_code "h")
  then getopt_loop results (apply_option FHelp optarg out)
  else (false, out).
Proof.
  cbn [getopt_loop CLI_OPTION_LIST_ITEMS List.find optChar field].
  destruct (Z.eqb opt (char_code "a")); [done|].
  destruct (Z.eqb opt (char_code "p")); [done|].
  destruct (Z.eqb opt (char_code "v")); [done|].
  by destruct (Z.eqb opt (char_code "h")).
Qed.

Lemma getopt_loop_recognised (results : list (Z * option cstring))
    (out : cli_options) :
  forallb recognised results = true →
  getopt_loop results out =
  (true,
   {| Cli.serverAddr := latest "a" results (Cli.serverAddr out);
      Cli.profile := latest "p" results (Cli.profile out);
      Cli.verbose := Cli.verbose out || given "v" results;
      Cli.help := Cli.help out || given "h" results |}).
Proof.
  revert out. induction results as [|[opt optarg] results IH]; intros out.
  - intros _. cbn. rewrite !orb_false_r. by destruct out.
  - cbn [forallb]. intros [Hr Hrest]%andb_prop.
    rewrite getopt_step. unfold latest, given in *.
    cbn [fold_left existsb fst snd].
    unfold recognised in Hr. cbn [existsb fst] in Hr.
    destruct (Z.eqb_spec opt (char_code "a")) as [->|Ha];
      [rewrite (IH _ Hrest); cbn; by rewrite ?orb_false_r|].
    destruct (Z.eqb_spec opt (char_code "p")) as [->|Hp];
      [rewrite (IH _ Hrest); cbn; by rewrite ?orb_false_r|].
    destruct (Z.eqb_spec opt (char_code "v")) as [->|Hv];
      [rewrite (IH _ Hrest); cbn; by rewrite ?orb_true_r|].
    destruct (Z.eqb_spec opt (char_code "h")) as [->|Hh];
      [rewrite (IH _ Hrest); cbn; by rewrite ?orb_true_r|].
    done.
Qed.

Lemma getopt_loop_ok (results : list (Z * option cstring)) (out : cli_options) :
  (getopt_loop results out).1 = forallb recognised results.
Proof.
  revert out. induction results as [|[opt optarg] results IH]; intros out;
    [done|].
  rewrite getopt_step. cbn [forallb]. unfold recognised at 1.
  cbn [existsb fst].
  destruct (Z.eqb opt (char_code "a")); [apply IH|].
  destruct (Z.eqb opt (char_code "p")); [apply IH|].
  destruct (Z.eqb opt (char_code "v")); [apply IH|].
  destruct (Z.eqb opt (char_code "h")); [|done].
  cbn [orb andb]. apply IH.
Qed.

Lemma getopt_loop_app (r1 r2 : list (Z * option cstring)) (out : cli_options) :
  getopt_loop (r1 ++ r2) out =
  if (getopt_loop r1 out).1 then getopt_loop r2 (getopt_loop r1 out).2
  else (false, (getopt_loop r1 out).2).
Proof.
  revert out. induction r1 as [|[opt optarg] r1 IH]; intros out.
  - cbn [app getopt_loop fst snd]. by destruct (getopt_loop r2 out).
  - cbn [app]. rewrite !getopt_step.
    destruct (Z.eqb opt (char_code "a")); [apply IH|].
    destruct (Z.eqb opt (char_code "p")); [apply IH|].
    destruct (Z.eqb opt (char_code "v")); [apply IH|].
    destruct (Z.eqb opt (char_code "h")); [apply IH|done].
Qed.

Lemma parse_cli_options_recognised_eq (progname : cstring)
    (results : list (Z * option cstring)) (operand : option cstring)
    (out : cli_options) :
  forallb recognised results = true →
  parse_cli_options progname results operand out =
  (match operand with None => true | Some _ => false end,
   {| Cli.serverAddr := latest "a" results (Cli.serverAddr out);
      Cli.profile := latest "p" results (Cli.profile out);
      Cli.verbose := Cli.verbose out || given "v" results;
      Cli.help := Cli.help out || given "h" results |},
   match operand with
   | None => []
   | Some _ => [UnrecognizedExtraOperands progname]
   end).
Proof.
  intros Hall. unfold parse_cli_options.
  rewrite (getopt_loop_recognised _ _ Hall). by destruct operand.
Qed.

(** X14: when every option that [getopt] returns is one of a, p, v, h,
    [parse_cli_options] sets the server address and the profile to the
    argument of the last -a and of the last -p (leaving them as they were
    without one), sets verbose and help when -v and -h occur, and succeeds
    unless an operand is left over, which it reports. *)
Theorem parse_cli_options_recognised (progname : cstring)
    (results : list (Z * option cstring)) (operand : option cstring)
    (out : cli_options) :
  forallb recognised results = true →
  parse_cli_options progname results operand out =
  (match operand with None => true | Some _ => false end,
   {| Cli.serverAddr := latest "a" results (Cli.serverAddr out);
      Cli.profile := latest "p" results (Cli.profile out);
      Cli.verbose := Cli.verbose out || given "v" results;
      Cli.help := Cli.help out || given "h" results |},
   match operand with
   | None => []
   | Some _ => [UnrecognizedExtraOperands progname]
   end).
Proof. apply parse_cli_options_recognised_eq. Qed.

Lemma parse_cli_options_recognised_witness :
  parse_cli_options (lit "txvc")
    [(char_code "p", Some (lit "old")); (char_code "v", None);
     (char_code "p", Some (lit "jtag:freq=1")); (char_code "v", None)]
    None zero_options =
  (true,
   {| Cli.serverAddr := None; Cli.profile := Some (lit "jtag:freq=1");
      Cli.verbose := true; Cli.help := false |}, []).
Proof.
  rewrite (parse_cli_options_recognised (lit "txvc")
             [(char_code "p", Some (lit "old")); (char_code "v", None);
              (char_code "p", Some (lit "jtag:freq=1")); (char_code "v", None)]
             None zero_options eq_refl).
  reflexivity.
Defined.

(** X15: at the first value from [getopt] that is none of a, p, v, h,
    [parse_cli_options] returns false at once: the options before it have
    been applied, the ones after it and a left-over operand are not looked
    at, and the function itself prints nothing. *)
Theorem parse_cli_options_unknown (progname : cstring)
    (r1 r2 : list (Z * option cstring)) (opt : Z) (optarg operand : option cstring)
    (out : cli_options) :
  forallb recognised r1 = true → recognised (opt, optarg) = false →
  parse_cli_options progname (r1 ++ (opt, optarg) :: r2) operand out =
  (false, (getopt_loop r1 out).2, []) ∧
  parse_cli_options progname r1 None out = (true, (getopt_loop r1 out).2, []).
Proof.
  intros Hall Hopt. unfold parse_cli_options.
  rewrite getopt_loop_app, getopt_loop_ok, Hall, getopt_step.
  unfold recognised in Hopt. cbn [existsb fst] in Hopt.
  destruct (Z.eqb opt (char_code "a")); [done|].
  destruct (Z.eqb opt (char_code "p")); [done|].
  destruct (Z.eqb opt (char_code "v")); [done|].
  destruct (Z.eqb opt (char_code "h")); [done|].
  split; [done|].
  pose proof (getopt_loop_ok r1 out) as Hok. rewrite Hall in Hok.
  destruct (getopt_loop r1 out) as [ok out']. cbn [fst snd] in *. by subst.
Qed.

Lemma parse_cli_options_unknown_witness :
  parse_cli_options (lit "txvc")
    ([(char_code "v", None)] ++ (char_code "?", None) ::
     [(char_code "p", Some (lit "jtag"))]) None zero_options =
  (false,
   {| Cli.serverAddr := None; Cli.profile := None;
      Cli.verbose := true; Cli.help := false |}, []).
Proof.
  destruct (parse_cli_options_unknown (lit "txvc") [(char_code "v", None)]
              [(char_code "p", Some (lit "jtag"))] (char_code "?") None None
              zero_options eq_refl eq_refl) as [-> _].
  reflexivity.
Defined.

(** X16: the exit status of the program from its command line: it is
    EXIT_FAILURE, after the brief usage text, when [getopt] returns a value
    that is no option or when an operand is left over; otherwise 0 with -h;
    otherwise EXIT_FAILURE without -p, and 0 with it. The complaint about
    extra operands is printed only when all options were recognised. *)
Theorem main_argv_exit_status (aliases : list txvc_profile_alias)
    (drivers : list txvc_driver) (progname : cstring)
    (results : list (Z * option cstring)) (operand : option cstring) :
  ∃ err tr,
    main_argv aliases drivers progname results operand =
      (err,
       Some (if forallb recognised results && negb (bool_decide (is_Some operand))
             then (if given "h" results then EXIT_SUCCESS
                   else match latest "p" results None with
                        | None => EXIT_FAILURE
                        | Some _ => 0%Z
                        end)
             else EXIT_FAILURE,
             tr)) ∧
    (forallb recognised results = false ∨ is_Some operand →
     tr = [EPrintUsage progname false]) ∧
    (err ≠ [] ↔ forallb recognised results = true ∧ is_Some operand).
Proof.
  unfold main_argv.
  destruct (forallb recognised results) eqn:Hall.
  - rewrite (parse_cli_options_recognised_eq progname results operand _ Hall).
    destruct operand as [x|].
    + eexists _, _. split; [reflexivity|].
      split; [done|]. split; [by eauto|done].
    + destruct (main_status_run aliases drivers progname true
                  {| Cli.serverAddr := latest "a" results None;
                     Cli.profile := latest "p" results None;
                     Cli.verbose := given "v" results;
                     Cli.help := given "h" results |}) as (tr & Hmain & _).
      cbn [zero_options Cli.serverAddr Cli.profile Cli.verbose Cli.help orb].
      rewrite Hmain. eexists _, _. split; [reflexivity|].
      split; [by intros [?|[? ?]]|]. split; [done|by intros [_ [? ?]]].
  - unfold parse_cli_options.
    pose proof (getopt_loop_ok results zero_options) as Hok. rewrite Hall in Hok.
    destruct (getopt_loop results zero_options) as [ok out']. cbn [fst] in Hok.
    subst ok. eexists _, _. split; [reflexivity|].
    split; [done|]. split; [done|by intros [? _]].
Qed.
